(** * harb: the command layer of the heap-dump analyser (main.cc)

    A shallow embedding of [src/main.cc]: the commands [summary], [diff],
    [idom], [dominators] and [rootpath], the command dispatcher and [main],
    with the properties the specification states about them.

    Conventions.
    - A [uint64_t] or [size_t] value is an [N]; arithmetic on [size_t] wraps
      modulo [2^64] and the wrap-around is written out ([size_add]).
    - A [RubyHeapObj *] that points into the graph is modelled by the address
      of the object it points to (the store keeps one object per address);
      a pointer that may be [NULL] is an [option].
    - [sparse_hash_set] is a [gset], [sparse_hash_map] a [gmap], [std::deque]
      a list whose head is the front.
    - The loops of [cmd_rootpath], unbounded in the source, take a budget of
      iterations and give [None] when it runs out; the theorems show that
      the budget the command uses is always enough.
    - [graph.h], [ruby_heap_obj.h], the parser and the output layer are not
      among the sources; what the commands need of them is modelled from
      the specification and marked as such. *)

From Stdlib Require Import NArith ZArith Lia String Ascii List DecimalString.
From stdpp Require Import base option numbers list gmap sets strings.

Local Open Scope N_scope.

(* ================================================================== *)
(** * Machine arithmetic *)

Definition SIZE_MAX_plus_1 : N := 2 ^ 64.

(** Conversion of a value to [size_t]. *)
Definition to_size_t (n : N) : N := n mod SIZE_MAX_plus_1.

(** [a + b] on [size_t]. *)
Definition size_add (a b : N) : N := to_size_t (a + b).

(* ================================================================== *)
(** * Heap objects and the graph store *)

(** Modelled from the spec: [ruby_heap_obj.h] is not part of the sources;
    the record holds the fields of a HeapNode that the commands read through
    the accessors [get_addr], [get_type], [get_memsize], [is_root_object].
    [out_refs] is the ordered sequence of referenced identities, duplicates
    kept. *)
Record RubyHeapObj := mkObj {
  get_addr : N;
  get_type : N;
  get_memsize : N;
  is_root_object : bool;
  out_refs : list N
}.

(** Modelled from the spec: the Node/Edge Store of [graph.h], the stored
    objects in insertion order. *)
Definition Graph := list RubyHeapObj.

(** Modelled from the spec: [Graph::get_heap_object], the lookup of the
    store; [None] stands for the null pointer. *)
Definition get_heap_object (g : Graph) (addr : N) : option RubyHeapObj :=
  find (fun o => get_addr o =? addr) g.

(** Modelled from the spec: [Graph::get_num_heap_objects], the count of
    the store. *)
Definition get_num_heap_objects (g : Graph) : nat := length g.

(** Modelled from the spec: [Graph::each_heap_object], one call of the
    visitor per stored object in insertion order; the state threaded
    through stands for the variables the closure captures by reference. *)
Definition each_heap_object {S : Type} (g : Graph)
    (visit : S -> RubyHeapObj -> S) (s : S) : S :=
  fold_left visit g s.

(** Modelled from the spec: insertion rejects an identity that is already
    stored (the first occurrence wins). *)
Definition graph_insert (g : Graph) (o : RubyHeapObj) : Graph :=
  match get_heap_object g (get_addr o) with
  | Some _ => g
  | None => g ++ [o]
  end.

(** Modelled from the spec: the Graph Builder, one pass over the records
    the decoder delivers. *)
Definition Graph_build (records : list RubyHeapObj) : Graph :=
  fold_left graph_insert records [].

(* ================================================================== *)
(** * summary *)

Record summary_out := mkSummary {
  sum_num_heap_objects : nat;
  sum_total_size : N;
  sum_type_map : gmap N N
}.

(** The body of the closure passed to [each_heap_object]; the state is
    [(total_size, type_map)].  [type_map[type]] reads zero for a key that
    is not there yet. *)
Definition summary_visit (st : N * gmap N N) (obj : RubyHeapObj)
    : N * gmap N N :=
  let '(total_size, type_map) := st in
  let total_size := size_add total_size (get_memsize obj) in
  let type := get_type obj in
  let entry := default 0 (type_map !! type) in
  if negb (entry =? 0)
  then (total_size, <[type := size_add entry (get_memsize obj)]> type_map)
  else (total_size, <[type := to_size_t (get_memsize obj)]> type_map).

Definition cmd_summary (graph_ : Graph) : summary_out :=
  let num_heap_objects := get_num_heap_objects graph_ in
  let '(total_size, type_map) :=
    each_heap_object graph_ summary_visit (0, ∅) in
  mkSummary num_heap_objects total_size type_map.

(** The exact (unbounded) sum of [size_bytes] over the stored objects. *)
Definition sum_memsize (g : Graph) : N :=
  fold_right (fun o acc => get_memsize o + acc) 0 g.

(** The stored objects carrying a given type tag. *)
Definition objects_of_type (t : N) (g : Graph) : Graph :=
  List.filter (fun o => get_type o =? t) g.

(** The exact sum of the per-type totals that [summary] prints. *)
Definition sum_per_type (m : gmap N N) : N :=
  map_fold (fun _ v acc => v + acc) 0 m.

(* ================================================================== *)
(** * diff *)

(** What the decoder hands to the visitor for one record: the decoded
    object and [current_heap_object_json()], its original text. *)
Record parsed_record := mkParsed {
  rec_obj : RubyHeapObj;
  rec_json : string
}.

(** The calls the commands make into the C library. [env_fopen] gives the
    record stream of a file that opens, [env_mkstemp] and [env_fdopen] tell
    whether the temporary file can be made and opened.
    Modelled from the spec: [env_read_fails] tells, for the name of the
    primary snapshot, whether the Graph constructor of the absent [graph.h]
    fails to read the file it was handed (the specification makes that
    fatal). *)
Record Env := mkEnv {
  env_fopen : string -> option (list parsed_record);
  env_mkstemp : bool;
  env_fdopen : bool;
  env_strtoull : string -> N;
  env_read_fails : string -> bool
}.


Inductive diff_out :=
| DiffNoFile                       (* error: you must specify a heap dump file *)
| DiffUnableToOpen (path : string) (* unable to open %s *)
| DiffNoTempfile                   (* unable to create tempfile *)
| DiffNoTempFd                     (* unable to open temp fd *)
| DiffWritten (lines : list string). (* the lines written to the temp file *)

(** The condition of the [if] in the parse callback. *)
Definition diff_is_new (graph_ : Graph) (obj : RubyHeapObj) : bool :=
  negb (is_root_object obj) &&
  match get_heap_object graph_ (get_addr obj) with
  | None => true
  | Some _ => false
  end.

(** The parse callback: [out] is the text written so far, one line per
    [fprintf (out, "%s\n", s)]. *)
Definition diff_visit (graph_ : Graph) (out : list string) (r : parsed_record)
    : list string :=
  if diff_is_new graph_ (rec_obj r) then out ++ [rec_json r] else out.

Definition cmd_diff (env : Env) (graph_ : Graph) (args : option string)
    : diff_out :=
  match args with
  | None => DiffNoFile
  | Some path =>
    if (String.length path =? 0)%nat then DiffNoFile else
    match env_fopen env path with
    | None => DiffUnableToOpen path
    | Some stream =>
      if negb (env_mkstemp env) then DiffNoTempfile else
      if negb (env_fdopen env) then DiffNoTempFd else
      DiffWritten (fold_left (diff_visit graph_) stream [])
    end
  end.

(** The records of a stream that [diff] writes out, in stream order. *)
Definition diff_emitted (graph_ : Graph) (stream : list parsed_record)
    : list parsed_record :=
  List.filter (fun r => diff_is_new graph_ (rec_obj r)) stream.

(** How many records of a list carry a given identity. *)
Definition count_id (a : N) (l : list parsed_record) : nat :=
  length (List.filter (fun r => get_addr (rec_obj r) =? a) l).

(* ================================================================== *)
(** * Resolving the address argument *)

Inductive arg_error :=
| ArgMissing               (* error: you must specify an address *)
| ArgInvalid               (* error: you must specify a valid heap address *)
| ArgNotFound (addr : N).  (* error: no ruby object found at address 0x%x *)

(** [get_ruby_heap_obj_arg]: [inl e] stands for the message printed
    together with the [NULL] returned, [inr obj] for the object found.
    [strtoull] is the C library's, taken from the environment. *)
Definition get_ruby_heap_obj_arg (strtoull : string -> N) (graph_ : Graph)
    (args : option string) : arg_error + RubyHeapObj :=
  match args with
  | None => inl ArgMissing
  | Some a =>
    if (String.length a =? 0)%nat then inl ArgMissing else
    let addr := strtoull a in
    if addr =? 0 then inl ArgInvalid else
    match get_heap_object graph_ addr with
    | None => inl (ArgNotFound addr)
    | Some obj => inr obj
    end
  end.

(* ================================================================== *)
(** * rootpath *)

(** Modelled from the spec: [RubyHeapObj::get_refs_from] is declared in
    the absent [ruby_heap_obj.h]; it is the object's [out_refs] in
    declaration order, each resolved to the stored object it names (a
    dangling reference names no object and is not handed out). *)
Definition get_refs_from (graph_ : Graph) (obj : RubyHeapObj) : list N :=
  List.filter (fun a => bool_decide (is_Some (get_heap_object graph_ a)))
              (out_refs obj).

(** [p->get_refs_from()] for a pointer [p]. *)
Definition refs_of (graph_ : Graph) (p : N) : list N :=
  match get_heap_object graph_ p with
  | Some obj => get_refs_from graph_ obj
  | None => []
  end.

(** [p->is_root_object()] for a pointer [p]. *)
Definition root_at (graph_ : Graph) (p : N) : bool :=
  match get_heap_object graph_ p with
  | Some obj => is_root_object obj
  | None => false
  end.

(** The local variables of [cmd_rootpath]. [bfs_cur] is [None] while
    [cur] is not yet assigned. *)
Record bfs_state := mkBfs {
  bfs_q : list N;
  bfs_visited : gset N;
  bfs_parent : gmap N N;
  bfs_cur : option N;
  bfs_found : bool
}.

(** The [for] loop over the references of the dequeued node [cur]; on a
    root it sets [cur] and [found] and breaks. *)
Fixpoint scan_refs (graph_ : Graph) (cur : N) (refs : list N) (s : bfs_state)
    : bfs_state :=
  match refs with
  | [] => s
  | ref :: rest =>
    if decide (ref ∈ bfs_visited s) then scan_refs graph_ cur rest s
    else
      let visited := {[ref]} ∪ bfs_visited s in
      let parent := <[ref := cur]> (bfs_parent s) in
      if root_at graph_ ref
      then mkBfs (bfs_q s) visited parent (Some ref) true
      else scan_refs graph_ cur rest
             (mkBfs (bfs_q s ++ [ref]) visited parent (bfs_cur s) (bfs_found s))
  end.

(** [!q.empty() && !found] *)
Definition bfs_cond (s : bfs_state) : bool :=
  match bfs_q s with
  | [] => false
  | _ :: _ => negb (bfs_found s)
  end.

(** One iteration of the [while] loop: dequeue, then scan. *)
Definition bfs_body (graph_ : Graph) (s : bfs_state) : bfs_state :=
  match bfs_q s with
  | [] => s
  | cur :: q =>
    scan_refs graph_ cur (refs_of graph_ cur)
      (mkBfs q (bfs_visited s) (bfs_parent s) (Some cur) (bfs_found s))
  end.

Fixpoint bfs_loop (budget : nat) (graph_ : Graph) (s : bfs_state)
    : option bfs_state :=
  if bfs_cond s then
    match budget with
    | O => None
    | S n => bfs_loop n graph_ (bfs_body graph_ s)
    end
  else Some s.

(** The state before the loop: [q.push_back(obj); visited.insert(obj)]. *)
Definition bfs_init (obj : N) : bfs_state :=
  mkBfs [obj] {[obj]} ∅ None false.

(** The printing loop [while (cur != NULL) { print cur; cur = parent[cur]; }]:
    the objects printed, first to last. [parent[cur]] is [NULL] for a key
    that was never assigned. *)
Fixpoint walk_parents (budget : nat) (parent : gmap N N) (cur : option N)
    : option (list N) :=
  match cur with
  | None => Some []
  | Some c =>
    match budget with
    | O => None
    | S n => cons c <$> walk_parents n parent (parent !! c)
    end
  end.

Inductive rootpath_out :=
| RootPathArgError (e : arg_error)
| RootPathNone (addr : N)      (* error: could not find path to root for 0x%x *)
| RootPathFound (addr : N) (path : list N). (* root path to 0x%x: then the objects *)

(** The search and the printing for a resolved object, with the two loop
    budgets explicit. *)
Definition root_path_budget (b_loop b_walk : nat) (graph_ : Graph) (obj : N)
    : option rootpath_out :=
  s ← bfs_loop b_loop graph_ (bfs_init obj);
  if negb (bfs_found s) then Some (RootPathNone obj)
  else path ← walk_parents b_walk (bfs_parent s) (bfs_cur s);
       Some (RootPathFound obj path).

(** [root_path] with one iteration of each loop allowed per stored object. *)
Definition root_path (graph_ : Graph) (obj : N) : option rootpath_out :=
  root_path_budget (length graph_) (length graph_) graph_ obj.

Definition cmd_rootpath_budget (b_loop b_walk : nat) (strtoull : string -> N)
    (graph_ : Graph) (args : option string) : option rootpath_out :=
  match get_ruby_heap_obj_arg strtoull graph_ args with
  | inl e => Some (RootPathArgError e)
  | inr obj => root_path_budget b_loop b_walk graph_ (get_addr obj)
  end.

Definition cmd_rootpath (strtoull : string -> N) (graph_ : Graph)
    (args : option string) : option rootpath_out :=
  cmd_rootpath_budget (length graph_) (length graph_) strtoull graph_ args.

(** Paths along the declared [out_refs] of stored objects, to stored
    objects. *)
Inductive out_path (graph_ : Graph) (x : N) : nat -> N -> Prop :=
| out_path_O : out_path graph_ x 0 x
| out_path_S k y oy z :
    out_path graph_ x k y ->
    get_heap_object graph_ y = Some oy -> z ∈ out_refs oy ->
    is_Some (get_heap_object graph_ z) ->
    out_path graph_ x (S k) z.

(** ** Paths in the search direction *)

(** [hops g x k y]: [y] is reached from [x] by [k] steps, each from a node
    to one of the references [get_refs_from] hands out for it. *)
Inductive hops (graph_ : Graph) (x : N) : nat -> N -> Prop :=
| hops_O : hops graph_ x 0 x
| hops_S k y z :
    hops graph_ x k y -> z ∈ refs_of graph_ y -> hops graph_ x (S k) z.

(** A sequence in root-to-start order: every node is a reference of the
    node that follows it. *)
Fixpoint ref_chain (graph_ : Graph) (p : list N) : Prop :=
  match p with
  | a :: (b :: _) as t => a ∈ refs_of graph_ b /\ ref_chain graph_ t
  | _ => True
  end.

(** The nodes dequeued by the first [n] iterations of the loop. *)
Fixpoint dequeue_trace (n : nat) (graph_ : Graph) (s : bfs_state) : list N :=
  match n with
  | O => []
  | S n' =>
    if bfs_cond s then
      match bfs_q s with
      | [] => []
      | cur :: _ => cur :: dequeue_trace n' graph_ (bfs_body graph_ s)
      end
    else []
  end.

(** ** Invariants of the search *)

(** Ghost depth assignment: [lvl_set lvl a n] gives [a] depth [n]. *)
Definition lvl_set (lvl : N -> nat) (a : N) (n : nat) : N -> nat :=
  fun x => if decide (x = a) then n else lvl x.

(** The invariant of the search from [v]. [lvl] is the depth at which each
    visited node was discovered; [pend] is the node whose references are
    being scanned ([None] at the head of the [while] loop). *)
Record bfs_inv (graph_ : Graph) (v : N) (lvl : N -> nat) (pend : option N)
    (s : bfs_state) : Prop := mkBfsInv {
  inv_start : v ∈ bfs_visited s;
  inv_lvl0 : lvl v = O;
  inv_parent_start : bfs_parent s !! v = None;
  inv_tree : forall x, x ∈ bfs_visited s -> x ≠ v ->
    exists y, bfs_parent s !! x = Some y /\ y ∈ bfs_visited s /\
              x ∈ refs_of graph_ y /\ lvl x = S (lvl y) /\
              root_at graph_ x = false;
  inv_short : forall x k, x ∈ bfs_visited s -> hops graph_ v k x ->
    (lvl x <= k)%nat;
  inv_q_visited : forall x, x ∈ bfs_q s -> x ∈ bfs_visited s;
  inv_closed : forall x y, x ∈ bfs_visited s -> x ∉ bfs_q s ->
    Some x ≠ pend -> y ∈ refs_of graph_ x -> y ∈ bfs_visited s;
  inv_sorted : forall i j x y, bfs_q s !! i = Some x -> bfs_q s !! j = Some y ->
    (i <= j)%nat -> (lvl x <= lvl y)%nat;
  inv_q_span : forall x y, x ∈ bfs_q s -> y ∈ bfs_q s ->
    (lvl y <= S (lvl x))%nat;
  inv_pend : forall c, pend = Some c ->
    c ∈ bfs_visited s /\
    forall x, x ∈ bfs_q s -> (lvl c <= lvl x)%nat /\ (lvl x <= S (lvl c))%nat;
  inv_found : bfs_found s = false;
  inv_stored : forall x, x ∈ bfs_visited s ->
    is_Some (get_heap_object graph_ x);
  inv_size : forall x, x ∈ bfs_visited s -> (lvl x < size (bfs_visited s))%nat
}.

(** What holds once a root has been discovered: [cur] is that root, the
    predecessor map leads from it back to [v], and no other root-flagged
    node is nearer. *)
Record bfs_found_post (graph_ : Graph) (v : N) (s : bfs_state) : Prop :=
  mkFoundPost {
  post_found : bfs_found s = true;
  post_root : exists r (lvl : N -> nat),
    bfs_cur s = Some r /\ r ∈ bfs_visited s /\ r ≠ v /\
    root_at graph_ r = true /\
    v ∈ bfs_visited s /\ lvl v = O /\ bfs_parent s !! v = None /\
    (forall x, x ∈ bfs_visited s -> x ≠ v ->
       exists y, bfs_parent s !! x = Some y /\ y ∈ bfs_visited s /\
                 x ∈ refs_of graph_ y /\ lvl x = S (lvl y)) /\
    (forall k r', hops graph_ v k r' -> root_at graph_ r' = true -> r' ≠ v ->
       (lvl r <= k)%nat) /\
    (forall x, x ∈ bfs_visited s -> (lvl x < size (bfs_visited s))%nat) /\
    (forall x, x ∈ bfs_visited s -> is_Some (get_heap_object graph_ x))
}.

Arguments inv_start {graph_ v lvl pend s}.
Arguments inv_lvl0 {graph_ v lvl pend s}.
Arguments inv_parent_start {graph_ v lvl pend s}.
Arguments inv_tree {graph_ v lvl pend s}.
Arguments inv_short {graph_ v lvl pend s}.
Arguments inv_q_visited {graph_ v lvl pend s}.
Arguments inv_closed {graph_ v lvl pend s}.
Arguments inv_sorted {graph_ v lvl pend s}.
Arguments inv_q_span {graph_ v lvl pend s}.
Arguments inv_pend {graph_ v lvl pend s}.
Arguments inv_found {graph_ v lvl pend s}.
Arguments inv_stored {graph_ v lvl pend s}.
Arguments inv_size {graph_ v lvl pend s}.
Arguments post_found {graph_ v s}.
Arguments post_root {graph_ v s}.

(** A state at the head of the [while] loop. *)
Definition bfs_head_ok (graph_ : Graph) (v : N) (s : bfs_state) : Prop :=
  (exists lvl, bfs_inv graph_ v lvl None s) \/ bfs_found_post graph_ v s.

(* ================================================================== *)
(** * The dominator index *)

(** A node of the dominance graph: [None] is SUPER_ROOT, [Some a] the
    stored object at address [a]. *)
Definition dnode := option N.

(** Modelled from the spec: the graph handed to the Dominator Engine of the
    absent [graph.h]. SUPER_ROOT has an edge to every root-flagged stored
    object, a stored object to each object it references. *)
Definition dom_succs (graph_ : Graph) (n : dnode) : list dnode :=
  match n with
  | None => Some <$> List.filter (root_at graph_) (get_addr <$> graph_)
  | Some a => Some <$> refs_of graph_ a
  end.

(** Modelled from the spec: every node, SUPER_ROOT and the stored
    objects. *)
Definition dom_nodes (graph_ : Graph) : list dnode :=
  None :: (Some <$> (get_addr <$> graph_)).

(** Modelled from the spec, step 1: depth-first traversal. The state is the
    set of nodes entered and the nodes left so far, the last one left in
    front, which is reverse postorder. [depth] bounds the nesting. *)
Fixpoint dom_dfs (depth : nat) (graph_ : Graph) (n : dnode)
    (st : gset dnode * list dnode) : gset dnode * list dnode :=
  match depth with
  | O => st
  | S d =>
    if decide (n ∈ st.1) then st
    else
      let st' := fold_left (fun acc m => dom_dfs d graph_ m acc)
                           (dom_succs graph_ n) ({[n]} ∪ st.1, st.2) in
      (st'.1, n :: st'.2)
  end.

(** Modelled from the spec: the reachable nodes in reverse postorder,
    SUPER_ROOT first. *)
Definition dom_rpo (graph_ : Graph) : list dnode :=
  (dom_dfs (S (S (length graph_))) graph_ None (∅, [])).2.

(** Modelled from the spec: the reverse-postorder number of a node, its
    position in [rpo]. *)
Fixpoint rpo_number (rpo : list dnode) (n : dnode) : nat :=
  match rpo with
  | [] => O
  | m :: rest => if decide (m = n) then O else S (rpo_number rest n)
  end.

(** Modelled from the spec, step 3: the intersection walks the two chains
    upward through the current [idom] values, advancing the one whose
    reverse-postorder number is larger, until they meet. *)
Fixpoint dom_intersect (budget : nat) (idom : gmap dnode dnode)
    (rpo : list dnode) (a b : dnode) : dnode :=
  match budget with
  | O => a
  | S k =>
    if decide (a = b) then a
    else if (rpo_number rpo b <? rpo_number rpo a)%nat
    then match idom !! a with
         | Some a' => dom_intersect k idom rpo a' b
         | None => a
         end
    else match idom !! b with
         | Some b' => dom_intersect k idom rpo a b'
         | None => a
         end
  end.

(** Modelled from the spec: the already-processed predecessors of a node,
    those with an edge into it whose [idom] entry is currently defined. *)
Definition dom_processed_preds (graph_ : Graph) (idom : gmap dnode dnode)
    (n : dnode) : list dnode :=
  List.filter
    (fun m => bool_decide (n ∈ dom_succs graph_ m) &&
              bool_decide (is_Some (idom !! m)))
    (dom_nodes graph_).

(** Modelled from the spec: the new [idom] of a node, the intersection
    over its processed predecessors (the predecessor itself when there is
    only one). *)
Definition dom_candidate (graph_ : Graph) (idom : gmap dnode dnode)
    (rpo : list dnode) (n : dnode) : option dnode :=
  match dom_processed_preds graph_ idom n with
  | [] => None
  | p :: ps =>
    Some (fold_left (dom_intersect (S (length rpo)) idom rpo) ps p)
  end.

(** Modelled from the spec: one pass over the reachable nodes in reverse
    postorder, SUPER_ROOT excluded; the flag records whether an entry
    changed. *)
Definition dom_pass (graph_ : Graph) (rpo : list dnode)
    (idom : gmap dnode dnode) : gmap dnode dnode * bool :=
  fold_left
    (fun (st : gmap dnode dnode * bool) n =>
       match dom_candidate graph_ st.1 rpo n with
       | Some d =>
         if decide (st.1 !! n = Some d) then st else (<[n := d]> st.1, true)
       | None => st
       end)
    (List.filter (fun n => bool_decide (n ≠ None)) rpo)
    (idom, false).

(** Modelled from the spec, step 4: passes are repeated until nothing
    changes. *)
Fixpoint dom_iterate (budget : nat) (graph_ : Graph) (rpo : list dnode)
    (idom : gmap dnode dnode) : gmap dnode dnode :=
  match budget with
  | O => idom
  | S k =>
    let '(idom', changed) := dom_pass graph_ rpo idom in
    if changed then dom_iterate k graph_ rpo idom' else idom'
  end.

(** Modelled from the spec: the Dominator Index, [idom[SUPER_ROOT] =
    SUPER_ROOT] to start with. *)
Definition dom_index (graph_ : Graph) : gmap dnode dnode :=
  let rpo := dom_rpo graph_ in
  dom_iterate (S (length rpo * length rpo)) graph_ rpo {[None := None]}.

(** Modelled from the spec: [Graph::get_idom], empty when the node has no
    entry or when its entry is SUPER_ROOT, which is never handed out. *)
Definition get_idom (graph_ : Graph) (obj : RubyHeapObj) : option N :=
  match dom_index graph_ !! Some (get_addr obj) with
  | Some (Some d) => Some d
  | _ => None
  end.

(** Modelled from the spec: the children map, the inverse of [idom], over
    the stored objects. *)
Definition dom_children (graph_ : Graph) (idom : gmap dnode dnode) (a : N)
    : list N :=
  List.filter (fun c => bool_decide (idom !! Some c = Some (Some a)))
              (get_addr <$> graph_).

(** Modelled from the spec: the subtree below a node, the node itself
    left out. *)
Fixpoint dom_subtree (depth : nat) (children : N -> list N) (a : N) : list N :=
  match depth with
  | O => []
  | S d => flat_map (fun c => c :: dom_subtree d children c) (children a)
  end.

(** Modelled from the spec: [Graph::get_dominators], the traversal of the
    children map that starts at the node. *)
Definition get_dominators (graph_ : Graph) (obj : RubyHeapObj) : list N :=
  dom_subtree (length graph_) (dom_children graph_ (dom_index graph_))
              (get_addr obj).

(** Reachability from the declared roots, in the direction of the
    references. *)
Definition reachable_from_root (graph_ : Graph) (a : N) : Prop :=
  exists r k, is_Some (get_heap_object graph_ r) /\
              root_at graph_ r = true /\ hops graph_ r k a.

(** The nodes the Dominator Engine can meet: SUPER_ROOT and every object
    reachable from a declared root. *)
Definition dreach (graph_ : Graph) (n : dnode) : Prop :=
  match n with
  | None => True
  | Some a => reachable_from_root graph_ a
  end.

(** Keys and values of an [idom] map confined to a set of nodes. *)
Definition idom_within (R : dnode -> Prop) (idom : gmap dnode dnode) : Prop :=
  forall k v, idom !! k = Some v -> R k /\ R v.

(* ================================================================== *)
(** * idom and dominators *)

Inductive idom_out :=
| IdomArgError (e : arg_error)
| IdomNothing                    (* a root: returns without output *)
| IdomFound (addr d : N)         (* dominator for 0x%x: then the object *)
| IdomUnknown (addr : N).        (* could not determine dominator for 0x%x *)

Definition cmd_idom (strtoull : string -> N) (graph_ : Graph)
    (args : option string) : idom_out :=
  match get_ruby_heap_obj_arg strtoull graph_ args with
  | inl e => IdomArgError e
  | inr obj =>
    if is_root_object obj then IdomNothing else
    match get_idom graph_ obj with
    | Some idom => IdomFound (get_addr obj) idom
    | None => IdomUnknown (get_addr obj)
    end
  end.

Inductive dominators_out :=
| DomArgError (e : arg_error)
| DomNothing                     (* a root: returns without output *)
| DomList (addr : N) (l : list N) (* 0x%x dominates: then the objects *)
| DomNone (addr : N).            (* 0x%x does not dominate any objects *)

Definition cmd_dominators (strtoull : string -> N) (graph_ : Graph)
    (args : option string) : dominators_out :=
  match get_ruby_heap_obj_arg strtoull graph_ args with
  | inl e => DomArgError e
  | inr obj =>
    if is_root_object obj then DomNothing else
    match get_dominators graph_ obj with
    | [] => DomNone (get_addr obj)
    | dominators => DomList (get_addr obj) dominators
    end
  end.

(* ================================================================== *)
(** * The command loop *)

Inductive command_func :=
| F_quit | F_print | F_rootpath | F_idom | F_dominators | F_help
| F_summary | F_diff.

Record command_t := mkCommand {
  name : string;
  func : command_func;
  help : string
}.

Definition commands_ : list command_t :=
  [ mkCommand "quit" F_quit "Exits the program";
    mkCommand "print" F_print "Prints heap info for the address specified";
    mkCommand "rootpath" F_rootpath
      "Display the root path for the object specified";
    mkCommand "idom" F_idom
      "Print the immediate dominator for the object specified";
    mkCommand "dominators" F_dominators
      "Print all objects dominated by the object specified";
    mkCommand "help" F_help "Displays this message";
    mkCommand "summary" F_summary "Display a heap dump summary";
    mkCommand "diff" F_diff "Diff current heap dump with specifed dump" ].

(** What a command prints. *)
Inductive command_out :=
| OutQuit
| OutPrint (r : arg_error + N)
| OutRootpath (r : rootpath_out)
| OutIdom (r : idom_out)
| OutDominators (r : dominators_out)
| OutHelp (lines : list (string * string))
| OutSummary (r : summary_out)
| OutDiff (r : diff_out)
| OutUnknownCommand (cmd : string).  (* unknown command: %s *)

(** [cmd_print]: the error message, or the object that is printed. *)
Definition cmd_print (strtoull : string -> N) (graph_ : Graph)
    (args : option string) : arg_error + N :=
  match get_ruby_heap_obj_arg strtoull graph_ args with
  | inl e => inl e
  | inr obj => inr (get_addr obj)
  end.

Definition cmd_help : list (string * string) :=
  (fun c => (name c, help c)) <$> commands_.

(** The first loop of [execute_command]: [cmd] moves past the leading
    spaces. *)
Fixpoint skip_spaces (s : string) : string :=
  match s with
  | String c s' => if Ascii.eqb c " " then skip_spaces s' else s
  | EmptyString => s
  end.

(** The second loop: spaces are cut off from the last character of the line
    backwards.  (On a line without any other character the source goes on
    to read the byte in front of the buffer; the model stops at the start
    of the line.) *)
Fixpoint trim_right (s : string) : string :=
  match s with
  | EmptyString => EmptyString
  | String c s' =>
    match trim_right s' with
    | EmptyString => if Ascii.eqb c " " then EmptyString
                     else String c EmptyString
    | t => String c t
    end
  end.

(** The command word up to the first space, and [args] after the spaces
    that follow it ([args] is the empty string when there is none). *)
Fixpoint split_command (s : string) : string * string :=
  match s with
  | EmptyString => (EmptyString, EmptyString)
  | String c s' =>
    if Ascii.eqb c " " then (EmptyString, skip_spaces s')
    else let '(cmd, args) := split_command s' in (String c cmd, args)
  end.

(** [c->func(args)]. *)
Definition call_command (env : Env) (graph_ : Graph) (f : command_func)
    (args : option string) : option command_out :=
  match f with
  | F_quit => Some OutQuit
  | F_print => Some (OutPrint (cmd_print (env_strtoull env) graph_ args))
  | F_rootpath => OutRootpath <$> cmd_rootpath (env_strtoull env) graph_ args
  | F_idom => Some (OutIdom (cmd_idom (env_strtoull env) graph_ args))
  | F_dominators =>
    Some (OutDominators (cmd_dominators (env_strtoull env) graph_ args))
  | F_help => Some (OutHelp cmd_help)
  | F_summary => Some (OutSummary (cmd_summary graph_))
  | F_diff => Some (OutDiff (cmd_diff env graph_ args))
  end.

Definition execute_command (env : Env) (graph_ : Graph) (line : string)
    : option command_out :=
  let '(cmd, args) := split_command (skip_spaces (trim_right line)) in
  match find (fun c => String.eqb (name c) cmd) commands_ with
  | Some c => call_command env graph_ (func c) (Some args)
  | None => Some (OutUnknownCommand cmd)
  end.

(** [cmd_quit] is the one command that sets [exit_]. *)
Definition sets_exit (o : command_out) : bool :=
  match o with
  | OutQuit => true
  | _ => false
  end.

(** The loop of [main]: [lines] is what [readline] returns, call after
    call, before it returns [NULL]. *)
Fixpoint command_loop (env : Env) (graph_ : Graph) (exit_ : bool)
    (lines : list string) : option (list command_out) :=
  if exit_ then Some [] else
  match lines with
  | [] => Some []
  | line :: rest =>
    o ← execute_command env graph_ line;
    outs ← command_loop env graph_ (exit_ || sets_exit o) rest;
    Some (o :: outs)
  end.

(** The two calls of [fatal_error] in [main], each followed by [exit(-1)],
    and, modelled from the spec, the abort of the Graph constructor on a
    primary snapshot that cannot be read. *)
Inductive fatal_msg :=
| FatalNoDumpFile                    (* objectspace json dump file required *)
| FatalUnableToOpen (path : string)  (* unable to open %s *)
| FatalUnableToRead (path : string).

Inductive main_out :=
| MainFatal (msg : fatal_msg)
| MainReturn (status : Z) (outs : list command_out).

(** [main]; [argv] includes the program name. [new Graph(heap_file)] either
    fails to read the file, which ends the program, or builds the graph
    from the records of the file. *)
Definition main (env : Env) (argv : list string) (lines : list string)
    : option main_out :=
  if (length argv <? 2)%nat then Some (MainFatal FatalNoDumpFile) else
  match argv !! 1%nat with
  | None => Some (MainFatal FatalNoDumpFile)
  | Some heap_filename =>
    match env_fopen env heap_filename with
    | None => Some (MainFatal (FatalUnableToOpen heap_filename))
    | Some heap_file =>
      if env_read_fails env heap_filename
      then Some (MainFatal (FatalUnableToRead heap_filename))
      else
        let graph_ := Graph_build (rec_obj <$> heap_file) in
        outs ← command_loop env graph_ false lines;
        Some (MainReturn 0 outs)
    end
  end.

(* ================================================================== *)
(** * Sample inputs *)

(** A stand-in for the C library's [strtoull] on strings of decimal digits
    (zero for anything else), used to run the commands on sample input. *)
Definition strtoull_dec (s : string) : N :=
  match NilZero.uint_of_string s with
  | Some u => N.of_uint u
  | None => 0
  end.

Definition T_OBJECT : N := 1.
Definition T_STRING : N := 5.

(** The example of the specification: R (root) -> A -> B, A -> C -> B. *)
Definition example_graph : Graph :=
  [ mkObj 1 T_OBJECT 40 true [2];
    mkObj 2 T_OBJECT 40 false [3; 4];
    mkObj 3 T_STRING 24 false [];
    mkObj 4 T_OBJECT 40 false [3] ].

(** A root that lies on a cycle and also leads to a second root. *)
Definition cycle_graph : Graph :=
  [ mkObj 1 T_OBJECT 40 true [2];
    mkObj 2 T_OBJECT 40 false [1; 3];
    mkObj 3 T_OBJECT 40 false [4];
    mkObj 4 T_OBJECT 40 true [] ].

(** A single root inside a cycle, with duplicate and dangling references. *)
Definition lone_root_graph : Graph :=
  [ mkObj 1 T_OBJECT 40 true [1; 2; 2; 9];
    mkObj 2 T_STRING 24 false [1; 2; 3; 3];
    mkObj 3 T_STRING 24 false [1] ].

Definition T_ARRAY : N := 7.

(** Four objects of [2^63] bytes each. *)
Definition huge_graph : Graph :=
  [ mkObj 1 T_OBJECT (2 ^ 63) true [];
    mkObj 2 T_OBJECT (2 ^ 63) false [];
    mkObj 3 T_STRING (2 ^ 63) false [];
    mkObj 4 T_ARRAY (2 ^ 63) false [] ].

(** A second snapshot: object 2 is also in [example_graph], object 5 is
    new, object 6 is new but root-flagged, object 7 is new. *)
Definition second_stream : list parsed_record :=
  [ mkParsed (mkObj 2 T_OBJECT 40 false [3; 4]) "{address:0x2,type:OBJECT}";
    mkParsed (mkObj 5 T_STRING 24 false []) "{address:0x5,type:STRING}";
    mkParsed (mkObj 6 T_OBJECT 40 true [5]) "{address:0x6,type:ROOT}";
    mkParsed (mkObj 7 T_ARRAY 16 false [5]) "{address:0x7,type:ARRAY}" ].

(** A dump in which the record of object 5 occurs twice. *)
Definition repeated_stream : list parsed_record :=
  [ mkParsed (mkObj 5 T_STRING 24 false []) "{address:0x5,type:STRING}";
    mkParsed (mkObj 5 T_STRING 24 false []) "{address:0x5,type:STRING}" ].

Definition sample_env : Env :=
  mkEnv (fun path =>
           if String.eqb path "second.json" then Some second_stream
           else if String.eqb path "repeated.json" then Some repeated_stream
           else if String.eqb path "damaged.json" then Some second_stream
           else None)
        true true strtoull_dec
        (fun path => String.eqb path "damaged.json").

(** An environment in which every file opens and can be read. *)
Definition open_env : Env :=
  mkEnv (fun _ => Some second_stream) true true strtoull_dec (fun _ => false).

(** The example graph with a fifth object that nothing references. *)
Definition garbage_graph : Graph :=
  example_graph ++ [ mkObj 8 T_ARRAY 16 false [3] ].

(** A session: a dominator query for a root, a search without result, a
    diff file that does not open, an unknown identity, then a summary. *)
Definition sample_session : list string :=
  [ "idom 6"; "rootpath 7"; "diff nofile"; "print 99"; "idom 5"; "quit";
    "help" ]%string.

(* ================================================================== *)
(** * Command lines *)

(** The command word and the argument string that [execute_command] cuts
    out of a line. *)
Definition parse_line (line : string) : string * string :=
  split_command (skip_spaces (trim_right line)).

(** A run of [n] spaces. *)
Fixpoint spaces (n : nat) : string :=
  match n with
  | O => EmptyString
  | S k => String " " (spaces k)
  end.

Definition first_char (s : string) : option ascii :=
  match s with
  | EmptyString => None
  | String c _ => Some c
  end.

Fixpoint last_char (s : string) : option ascii :=
  match s with
  | EmptyString => None
  | String c EmptyString => Some c
  | String _ s' => last_char s'
  end.

Fixpoint has_space (s : string) : bool :=
  match s with
  | EmptyString => false
  | String c s' => Ascii.eqb c " " || has_space s'
  end.

(** The names of the command table, in table order. *)
Definition command_names : list string := name <$> commands_.

(** A line without any character other than a space. *)
Fixpoint blank (s : string) : bool :=
  match s with
  | EmptyString => true
  | String c s' => Ascii.eqb c " " && blank s'
  end.

(** A store that holds an object under address zero. *)
Definition zero_graph : Graph :=
  [ mkObj 0 T_OBJECT 40 true [1];
    mkObj 1 T_STRING 24 false [0] ].

(** A node whose references hold two roots, behind a plain node and a
    reference to itself. *)
Definition two_roots_graph : Graph :=
  [ mkObj 1 T_OBJECT 40 false [2; 1; 3; 4];
    mkObj 2 T_STRING 24 false [4];
    mkObj 3 T_OBJECT 40 true [];
    mkObj 4 T_OBJECT 40 true [] ].

(* ================================================================== *)
(** * rootpath on pointers *)

(** What differs from one run of the program to the next on the same
    snapshot: where the objects lie in memory.  [ptr_of] gives the
    [RubyHeapObj *] under which a run holds the object of an address,
    [obj_at] the address of the object a pointer points to.  The deque, the
    hash set and the hash map of [cmd_rootpath] hold such pointers, and the
    two hash containers are keyed by them; neither is ever iterated, they
    are only searched ([visited.find], [parent[ref]], [parent[cur]]). *)
Record layout := mkLayout {
  ptr_of : N -> N;
  obj_at : N -> N
}.

(** Every pointer points to the object it was handed out for, so two
    objects never share a pointer. *)
Definition layout_ok (L : layout) : Prop :=
  forall a, obj_at L (ptr_of L a) = a.

(** [*(p->get_refs_from())] for a pointer [p]: pointers to the referenced
    objects.  Their order is the order of the object's references, which is
    part of the graph and not of the run. *)
Definition refs_at (L : layout) (graph_ : Graph) (p : N) : list N :=
  ptr_of L <$> refs_of graph_ (obj_at L p).

(** [p->is_root_object()] for a pointer [p]. *)
Definition root_at_ptr (L : layout) (graph_ : Graph) (p : N) : bool :=
  root_at graph_ (obj_at L p).

(** The [for] loop of [cmd_rootpath], on pointers. *)
Fixpoint scan_refs_ptr (L : layout) (graph_ : Graph) (cur : N)
    (refs : list N) (s : bfs_state) : bfs_state :=
  match refs with
  | [] => s
  | ref :: rest =>
    if decide (ref ∈ bfs_visited s) then scan_refs_ptr L graph_ cur rest s
    else
      let visited := {[ref]} ∪ bfs_visited s in
      let parent := <[ref := cur]> (bfs_parent s) in
      if root_at_ptr L graph_ ref
      then mkBfs (bfs_q s) visited parent (Some ref) true
      else scan_refs_ptr L graph_ cur rest
             (mkBfs (bfs_q s ++ [ref]) visited parent (bfs_cur s) (bfs_found s))
  end.

(** One iteration of the [while] loop, on pointers. *)
Definition bfs_body_ptr (L : layout) (graph_ : Graph) (s : bfs_state)
    : bfs_state :=
  match bfs_q s with
  | [] => s
  | cur :: q =>
    scan_refs_ptr L graph_ cur (refs_at L graph_ cur)
      (mkBfs q (bfs_visited s) (bfs_parent s) (Some cur) (bfs_found s))
  end.

Fixpoint bfs_loop_ptr (budget : nat) (L : layout) (graph_ : Graph)
    (s : bfs_state) : option bfs_state :=
  if bfs_cond s then
    match budget with
    | O => None
    | S n => bfs_loop_ptr n L graph_ (bfs_body_ptr L graph_ s)
    end
  else Some s.

(** The search and the printing for the pointer [obj], in the run laid out
    by [L]: what is printed of an object is its address
    ([obj->get_addr()], [cur->print_ref_object(out)]). *)
Definition root_path_in (L : layout) (b_loop b_walk : nat) (graph_ : Graph)
    (obj : N) : option rootpath_out :=
  s ← bfs_loop_ptr b_loop L graph_ (bfs_init obj);
  if negb (bfs_found s) then Some (RootPathNone (obj_at L obj))
  else path ← walk_parents b_walk (bfs_parent s) (bfs_cur s);
       Some (RootPathFound (obj_at L obj) (obj_at L <$> path)).

(** [cmd_rootpath] in the run laid out by [L]. *)
Definition cmd_rootpath_in (L : layout) (b_loop b_walk : nat)
    (strtoull : string -> N) (graph_ : Graph) (args : option string)
    : option rootpath_out :=
  match get_ruby_heap_obj_arg strtoull graph_ args with
  | inl e => Some (RootPathArgError e)
  | inr obj => root_path_in L b_loop b_walk graph_ (ptr_of L (get_addr obj))
  end.

(** The state of the search on addresses, seen through a layout. *)
Definition bfs_image (L : layout) (s : bfs_state) : bfs_state :=
  mkBfs (ptr_of L <$> bfs_q s)
        (set_map (ptr_of L) (bfs_visited s))
        (kmap (ptr_of L) (ptr_of L <$> bfs_parent s))
        (ptr_of L <$> bfs_cur s)
        (bfs_found s).

(** Two sample layouts: the objects one after the other from 4096 on, and
    sixteen bytes apart behind a header of eight. *)
Definition shifted_layout : layout :=
  mkLayout (fun a => a + 4096) (fun p => p - 4096).

Definition strided_layout : layout :=
  mkLayout (fun a => 16 * a + 8) (fun p => p / 16).

(** The address a command was asked about: the value of a non-empty
    argument, other than zero, under which the store holds an object. *)
Definition asked_for (strtoull : string -> N) (graph_ : Graph)
    (args : option string) (addr : N) : Prop :=
  addr ≠ 0 /\ is_Some (get_heap_object graph_ addr) /\
  exists a, args = Some a /\ a ≠ EmptyString /\ addr = strtoull a.

(* ================================================================== *)
(** * Proofs *)

(* ================================================================== *)
(** * The store *)

Lemma get_heap_object_addr g a o :
  get_heap_object g a = Some o -> get_addr o = a.
Proof.
  unfold get_heap_object. intros H.
  apply find_some in H as [_ H]. by apply N.eqb_eq in H.
Qed.

Lemma get_heap_object_In g a o :
  get_heap_object g a = Some o -> In o g.
Proof. unfold get_heap_object. intros H. by apply find_some in H as [H _]. Qed.

Lemma refs_of_stored g x y :
  y ∈ refs_of g x -> is_Some (get_heap_object g y).
Proof.
  unfold refs_of, get_refs_from. destruct (get_heap_object g x); [|by inversion 1].
  rewrite list_elem_of_In, filter_In. intros [_ H].
  by apply bool_decide_eq_true in H.
Qed.

Lemma refs_of_out_refs g x y :
  y ∈ refs_of g x ->
  exists o, get_heap_object g x = Some o /\ y ∈ out_refs o.
Proof.
  unfold refs_of, get_refs_from. destruct (get_heap_object g x) as [o|]; [|by inversion 1].
  rewrite list_elem_of_In, filter_In. intros [H _].
  exists o. split; [done|]. by apply list_elem_of_In.
Qed.

Lemma get_heap_object_None g a :
  get_heap_object g a = None -> a ∉ get_addr <$> g.
Proof.
  unfold get_heap_object. intros H (o & -> & Ho)%list_elem_of_fmap.
  apply list_elem_of_In in Ho.
  pose proof (find_none _ _ H o Ho) as Hne. cbv beta in Hne.
  by rewrite N.eqb_refl in Hne.
Qed.

(** The builder keeps one object per address, which is what lets an
    address stand for the pointer to its object. *)
Lemma Graph_build_NoDup records : NoDup (get_addr <$> Graph_build records).
Proof.
  unfold Graph_build.
  assert (NoDup (get_addr <$> ([] : Graph))) as H0 by apply NoDup_nil_2.
  revert H0. generalize ([] : Graph).
  induction records as [|o records IH]; intros g Hg; cbn [fold_left]; [done|].
  apply IH. unfold graph_insert.
  destruct (get_heap_object g (get_addr o)) eqn:Ho; [done|].
  rewrite fmap_app. apply NoDup_app. split_and!; [done| |apply NoDup_singleton].
  intros a Ha ->%list_elem_of_singleton.
  by apply (get_heap_object_None _ _ Ho).
Qed.

(** The visited set never outgrows the store. *)
Lemma stored_set_size (g : Graph) (V : gset N) :
  (forall x, x ∈ V -> is_Some (get_heap_object g x)) ->
  (size V <= length g)%nat.
Proof.
  intros H.
  assert (V ⊆ list_to_set (map get_addr g)) as Hsub.
  { intros x Hx. apply elem_of_list_to_set, list_elem_of_In, in_map_iff.
    destruct (H x Hx) as [o Ho]. exists o. split.
    - by eapply get_heap_object_addr.
    - by eapply get_heap_object_In. }
  apply subseteq_size in Hsub. etrans; [exact Hsub|].
  clear. induction g as [|o g IH].
  - by vm_compute.
  - cbn [map length]. rewrite list_to_set_cons.
    rewrite size_union_alt, size_singleton.
    assert (size (list_to_set (map get_addr g) ∖ {[get_addr o]} : gset N)
            <= size (list_to_set (map get_addr g) : gset N))%nat.
    { apply subseteq_size. intros x. rewrite elem_of_difference. tauto. }
    lia.
Qed.

(* ================================================================== *)
(** * The search: invariant preservation *)

Ltac bfs_simpl :=
  unfold bfs_init;
  cbn [bfs_q bfs_visited bfs_parent bfs_cur bfs_found] in *.

Lemma lvl_set_eq lvl a n : lvl_set lvl a n a = n.
Proof. unfold lvl_set. by rewrite decide_True. Qed.

Lemma lvl_set_ne lvl a n x : x ≠ a -> lvl_set lvl a n x = lvl x.
Proof. intros. unfold lvl_set. by rewrite decide_False. Qed.

Section Search.

Context (g : Graph) (v : N).

(** Every node [k] hops away from the start is already visited, unless [k]
    exceeds the depth of the node being scanned. *)
Lemma bfs_frontier lvl c s k x :
  bfs_inv g v lvl (Some c) s -> hops g v k x ->
  x ∈ bfs_visited s \/ (lvl c < k)%nat.
Proof.
  intros I H. induction H as [|k y z H IH Hz].
  - left. apply I.
  - destruct IH as [Hy|Hlt]; [|right; lia].
    pose proof (inv_short I y k Hy H) as Hk.
    destruct (inv_pend I c eq_refl) as [_ Hq].
    destruct (decide (y ∈ bfs_q s)) as [Hin|Hnin].
    { right. destruct (Hq y Hin). lia. }
    destruct (decide (y = c)) as [->|Hne]; [right; lia|].
    left. eapply (inv_closed I y z); eauto. congruence.
Qed.

(** Once the queue is empty every node reachable from the start has been
    visited. *)
Lemma bfs_exhausted lvl s k x :
  bfs_inv g v lvl None s -> bfs_q s = [] -> hops g v k x ->
  x ∈ bfs_visited s.
Proof.
  intros I Hq H. induction H as [|k y z H IH Hz].
  - apply I.
  - eapply (inv_closed I y z); eauto.
    rewrite Hq. by apply not_elem_of_nil.
Qed.

Lemma bfs_init_inv :
  is_Some (get_heap_object g v) ->
  bfs_inv g v (fun _ => O) None (bfs_init v).
Proof.
  intros Hv. constructor; bfs_simpl.
  - by apply elem_of_singleton.
  - done.
  - apply lookup_empty.
  - intros x Hx Hne. by apply elem_of_singleton in Hx.
  - intros; lia.
  - intros x Hx. apply list_elem_of_singleton in Hx. by apply elem_of_singleton.
  - intros x y Hx Hnq. apply elem_of_singleton in Hx. subst.
    exfalso. apply Hnq. by apply list_elem_of_singleton.
  - intros; lia.
  - intros; lia.
  - intros c Hc. discriminate.
  - done.
  - intros x Hx. apply elem_of_singleton in Hx. by subst.
  - intros x _. rewrite size_singleton. lia.
Qed.

(** Dequeuing the front node. *)
Lemma bfs_pop_inv lvl s c q :
  bfs_inv g v lvl None s -> bfs_q s = c :: q ->
  bfs_inv g v lvl (Some c)
    (mkBfs q (bfs_visited s) (bfs_parent s) (Some c) (bfs_found s)).
Proof.
  intros I Hq. constructor; bfs_simpl; try apply I.
  - intros x Hx. apply I. rewrite Hq. by right.
  - intros x y Hx Hnq Hne Hy. eapply (inv_closed I x y); eauto.
    rewrite Hq. intros Hin. apply elem_of_cons in Hin as [->|Hin]; [|done].
    by apply Hne.
  - intros i j x y Hi Hj Hij.
    apply (inv_sorted I (S i) (S j) x y); rewrite ?Hq; simpl; auto with lia.
  - intros x y Hx Hy. apply (inv_q_span I); rewrite Hq; by right.
  - intros c' [= <-]. split.
    + apply I. rewrite Hq. by left.
    + intros x Hx. split.
      * apply list_elem_of_lookup in Hx as [i Hi].
        apply (inv_sorted I O (S i) c x); rewrite ?Hq; simpl; auto with lia.
      * apply (inv_q_span I); rewrite Hq; [by left|by right].
Qed.

(** Discovering a node that is not root-flagged: it is marked, given its
    predecessor and enqueued. *)
Lemma bfs_push_inv lvl s c ref :
  bfs_inv g v lvl (Some c) s ->
  ref ∈ refs_of g c -> ref ∉ bfs_visited s -> root_at g ref = false ->
  bfs_inv g v (lvl_set lvl ref (S (lvl c))) (Some c)
    (mkBfs (bfs_q s ++ [ref]) ({[ref]} ∪ bfs_visited s)
           (<[ref := c]> (bfs_parent s)) (bfs_cur s) (bfs_found s)).
Proof.
  intros I Href Hnew Hnr.
  destruct (inv_pend I c eq_refl) as [Hc Hq].
  assert (forall x, x ∈ bfs_visited s -> lvl_set lvl ref (S (lvl c)) x = lvl x)
    as Hold.
  { intros x Hx. apply lvl_set_ne. intros ->. done. }
  assert (forall x, x ∈ bfs_q s ++ [ref] ->
            (lvl c <= lvl_set lvl ref (S (lvl c)) x)%nat /\
            (lvl_set lvl ref (S (lvl c)) x <= S (lvl c))%nat) as Hq'.
  { intros x Hx. apply elem_of_app in Hx as [Hx|Hx].
    - rewrite Hold by (by apply I). by apply Hq.
    - apply list_elem_of_singleton in Hx as ->. rewrite lvl_set_eq. lia. }
  constructor; bfs_simpl.
  - apply elem_of_union_r, I.
  - rewrite Hold; apply I.
  - rewrite lookup_insert_ne; [apply I|]. intros ->. apply Hnew, I.
  - intros x Hx Hne. apply elem_of_union in Hx as [Hx|Hx].
    + apply elem_of_singleton in Hx as ->. exists c.
      rewrite lookup_insert_eq, lvl_set_eq, Hold by done.
      repeat split; auto. by apply elem_of_union_r.
    + destruct (inv_tree I x Hx Hne) as (y & Hp & Hy & He & Hl & Hr).
      exists y. rewrite lookup_insert_ne by (intros ->; done).
      rewrite !Hold by done. repeat split; auto. by apply elem_of_union_r.
  - intros x k Hx Hk. apply elem_of_union in Hx as [Hx|Hx].
    + apply elem_of_singleton in Hx as ->. rewrite lvl_set_eq.
      destruct (bfs_frontier _ _ _ _ _ I Hk); [done|lia].
    + rewrite Hold by done. by eapply (inv_short I).
  - intros x Hx. apply elem_of_app in Hx as [Hx|Hx].
    + apply elem_of_union_r. by apply I.
    + apply list_elem_of_singleton in Hx as ->. apply elem_of_union_l.
      by apply elem_of_singleton.
  - intros x y Hx Hnq Hne Hy. apply elem_of_union_r.
    apply elem_of_union in Hx as [Hx|Hx].
    + apply elem_of_singleton in Hx as ->. exfalso. apply Hnq.
      apply elem_of_app. right. by apply list_elem_of_singleton.
    + eapply (inv_closed I x y); eauto.
      intros Hin. apply Hnq, elem_of_app. by left.
  - intros i j x y Hi Hj Hij.
    assert (x ∈ bfs_q s ++ [ref]) as Hx by (apply list_elem_of_lookup; eauto).
    assert (y ∈ bfs_q s ++ [ref]) as Hy by (apply list_elem_of_lookup; eauto).
    apply lookup_app_Some in Hj as [Hj|[Hlen Hj]].
    + assert (j < length (bfs_q s))%nat by (by eapply lookup_lt_Some).
      rewrite lookup_app_l in Hi by lia.
      rewrite !Hold by (apply I; apply list_elem_of_lookup; eauto).
      by eapply (inv_sorted I i j).
    + apply list_lookup_singleton_Some in Hj as [_ <-]. rewrite lvl_set_eq.
      by apply Hq'.
  - intros x y Hx Hy. destruct (Hq' x Hx), (Hq' y Hy). lia.
  - intros c' [= <-]. split; [by apply elem_of_union_r|].
    intros x Hx. rewrite (Hold c Hc). by apply Hq'.
  - apply I.
  - intros x Hx. apply elem_of_union in Hx as [Hx|Hx]; [|by apply I].
    apply elem_of_singleton in Hx as ->. by eapply refs_of_stored.
  - intros x Hx. rewrite size_union, size_singleton
      by (apply disjoint_singleton_l; done).
    apply elem_of_union in Hx as [Hx|Hx].
    + apply elem_of_singleton in Hx as ->. rewrite lvl_set_eq.
      pose proof (inv_size I c Hc). lia.
    + rewrite Hold by done. pose proof (inv_size I x Hx). lia.
Qed.

(** Discovering a root-flagged node ends the search. *)
Lemma bfs_root_post lvl s c ref :
  bfs_inv g v lvl (Some c) s ->
  ref ∈ refs_of g c -> ref ∉ bfs_visited s -> root_at g ref = true ->
  bfs_found_post g v
    (mkBfs (bfs_q s) ({[ref]} ∪ bfs_visited s)
           (<[ref := c]> (bfs_parent s)) (Some ref) true).
Proof.
  intros I Href Hnew Hr.
  destruct (inv_pend I c eq_refl) as [Hc Hq].
  assert (ref ≠ v) as Hrv by (intros ->; apply Hnew, I).
  assert (forall x, x ∈ bfs_visited s -> lvl_set lvl ref (S (lvl c)) x = lvl x)
    as Hold.
  { intros x Hx. apply lvl_set_ne. intros ->. done. }
  constructor; bfs_simpl; [done|].
  exists ref, (lvl_set lvl ref (S (lvl c))).
  split_and!; auto.
  - apply elem_of_union_l. by apply elem_of_singleton.
  - apply elem_of_union_r, I.
  - rewrite Hold; apply I.
  - rewrite lookup_insert_ne by done. apply I.
  - intros x Hx Hne. apply elem_of_union in Hx as [Hx|Hx].
    + apply elem_of_singleton in Hx as ->. exists c.
      rewrite lookup_insert_eq, lvl_set_eq, Hold by done.
      repeat split; auto. by apply elem_of_union_r.
    + destruct (inv_tree I x Hx Hne) as (y & Hp & Hy & He & Hl & _).
      exists y. rewrite lookup_insert_ne by (intros ->; done).
      rewrite !Hold by done. repeat split; auto. by apply elem_of_union_r.
  - intros k r' Hk Hr' Hne. rewrite lvl_set_eq.
    destruct (bfs_frontier _ _ _ _ _ I Hk) as [Hvis|]; [|lia].
    destruct (inv_tree I r' Hvis Hne) as (y & _ & _ & _ & _ & Hnr).
    congruence.
  - intros x Hx. rewrite size_union, size_singleton
      by (apply disjoint_singleton_l; done).
    apply elem_of_union in Hx as [Hx|Hx].
    + apply elem_of_singleton in Hx as ->. rewrite lvl_set_eq.
      pose proof (inv_size I c Hc). lia.
    + rewrite Hold by done. pose proof (inv_size I x Hx). lia.
  - intros x Hx. apply elem_of_union in Hx as [Hx|Hx]; [|by apply I].
    apply elem_of_singleton in Hx as ->. by eapply refs_of_stored.
Qed.

(** The [for] loop: scanning the remaining references [rest] of [c]. *)
Lemma scan_refs_inv c rest : forall s lvl,
  bfs_inv g v lvl (Some c) s ->
  (forall y, y ∈ rest -> y ∈ refs_of g c) ->
  (forall y, y ∈ refs_of g c -> y ∈ rest \/ y ∈ bfs_visited s) ->
  bfs_head_ok g v (scan_refs g c rest s).
Proof.
  induction rest as [|ref rest IH]; intros s lvl I Hsub Hdone; simpl.
  - left. exists lvl.
    destruct (inv_pend I c eq_refl) as [Hc Hq].
    constructor; try apply I.
    + intros x y Hx Hnq _ Hy. destruct (decide (x = c)) as [->|Hne].
      * destruct (Hdone y Hy) as [Hn|]; [by apply elem_of_nil in Hn|done].
      * eapply (inv_closed I x y); eauto. congruence.
    + discriminate.
  - destruct (decide (ref ∈ bfs_visited s)) as [Hvis|Hnew].
    + apply (IH s lvl I).
      * intros y Hy. apply Hsub. by right.
      * intros y Hy. destruct (Hdone y Hy) as [Hin|]; [|by right].
        apply elem_of_cons in Hin as [->|]; [by right|by left].
    + assert (ref ∈ refs_of g c) as Href by (apply Hsub; by left).
      destruct (root_at g ref) eqn:Hr.
      * right. by eapply bfs_root_post.
      * eapply IH.
        -- by apply bfs_push_inv.
        -- intros y Hy. apply Hsub. by right.
        -- bfs_simpl. intros y Hy. destruct (Hdone y Hy) as [Hin|Hin].
           ++ apply elem_of_cons in Hin as [->|]; [right|by left].
              apply elem_of_union_l. by apply elem_of_singleton.
           ++ right. by apply elem_of_union_r.
Qed.

(** One iteration of the [while] loop keeps the invariant. *)
Lemma bfs_body_ok lvl s :
  bfs_inv g v lvl None s -> bfs_cond s = true ->
  bfs_head_ok g v (bfs_body g s).
Proof.
  intros I Hc. unfold bfs_cond, bfs_body in *.
  destruct (bfs_q s) as [|c q] eqn:Hq; [done|].
  eapply scan_refs_inv.
  - by apply bfs_pop_inv.
  - auto.
  - intros y Hy. by left.
Qed.

Lemma bfs_post_cond s : bfs_found_post g v s -> bfs_cond s = false.
Proof.
  intros P. unfold bfs_cond. rewrite (post_found P).
  by destruct (bfs_q s).
Qed.

(** Whatever the budget, a loop that ends does so in a good state. *)
Lemma bfs_loop_ok budget : forall s s',
  bfs_head_ok g v s -> bfs_loop budget g s = Some s' ->
  bfs_head_ok g v s' /\ bfs_cond s' = false.
Proof.
  induction budget as [|n IH]; intros s s' Hs; simpl;
    destruct (bfs_cond s) eqn:Hc; try discriminate;
    try (intros [= <-]; by split).
  intros Hl. destruct Hs as [[lvl I]|P].
  - eapply IH; [|exact Hl]. by eapply bfs_body_ok.
  - apply bfs_post_cond in P. congruence.
Qed.

(** ** Counting the iterations *)

(** Each enqueue comes with a fresh member of the visited set. *)
Lemma scan_refs_count c refs : forall s,
  (length (bfs_q (scan_refs g c refs s)) + size (bfs_visited s) <=
   length (bfs_q s) + size (bfs_visited (scan_refs g c refs s)))%nat.
Proof.
  induction refs as [|ref rest IH]; intros s; simpl; [lia|].
  destruct (decide (ref ∈ bfs_visited s)) as [Hvis|Hnew]; [apply IH|].
  assert (size ({[ref]} ∪ bfs_visited s) = S (size (bfs_visited s))) as Hsz.
  { rewrite size_union, size_singleton by (apply disjoint_singleton_l; done).
    done. }
  destruct (root_at g ref).
  - bfs_simpl. lia.
  - specialize (IH (mkBfs (bfs_q s ++ [ref]) ({[ref]} ∪ bfs_visited s)
           (<[ref := c]> (bfs_parent s)) (bfs_cur s) (bfs_found s))).
    bfs_simpl. rewrite Hsz, length_app in IH. cbn [length] in IH. lia.
Qed.

Lemma bfs_head_ok_stored s :
  bfs_head_ok g v s ->
  forall x, x ∈ bfs_visited s -> is_Some (get_heap_object g x).
Proof.
  intros [[lvl I]|P]; [apply I|].
  destruct (post_root P) as (r & lvl & H). apply H.
Qed.

Lemma bfs_cond_true_inv s :
  bfs_head_ok g v s -> bfs_cond s = true ->
  exists lvl c q, bfs_inv g v lvl None s /\ bfs_q s = c :: q.
Proof.
  intros [[lvl I]|P] Hc.
  - unfold bfs_cond in Hc. destruct (bfs_q s) as [|c q] eqn:Hq; [done|].
    by exists lvl, c, q.
  - apply bfs_post_cond in P. congruence.
Qed.

(** The iterations made so far plus the queue length never exceed the
    number of visited nodes. *)
Lemma bfs_body_count s n :
  bfs_cond s = true ->
  (n + length (bfs_q s) <= size (bfs_visited s))%nat ->
  (S n + length (bfs_q (bfs_body g s)) <= size (bfs_visited (bfs_body g s)))%nat.
Proof.
  unfold bfs_cond, bfs_body. destruct (bfs_q s) as [|c q]; [done|].
  intros _ Hn. cbn [length] in Hn.
  pose proof (scan_refs_count c (refs_of g c)
    (mkBfs q (bfs_visited s) (bfs_parent s) (Some c) (bfs_found s))) as H.
  bfs_simpl. lia.
Qed.

(** The loop ends within one iteration per stored object. *)
Lemma bfs_loop_total budget : forall s n,
  bfs_head_ok g v s ->
  (n + length (bfs_q s) <= size (bfs_visited s))%nat ->
  (length g <= budget + n)%nat ->
  is_Some (bfs_loop budget g s).
Proof.
  induction budget as [|b IH]; intros s n Hs Hn Hb; simpl;
    destruct (bfs_cond s) eqn:Hc; try done.
  - destruct (bfs_cond_true_inv _ Hs Hc) as (lvl & c & q & I & Hq).
    pose proof (stored_set_size g (bfs_visited s) (bfs_head_ok_stored _ Hs)).
    rewrite Hq in Hn. cbn [length] in Hn. lia.
  - destruct (bfs_cond_true_inv _ Hs Hc) as (lvl & c & q & I & Hq).
    apply (IH _ (S n)).
    + by eapply bfs_body_ok.
    + by apply bfs_body_count.
    + lia.
Qed.

Lemma dequeue_trace_length n : forall s n0,
  bfs_head_ok g v s ->
  (n0 + length (bfs_q s) <= size (bfs_visited s))%nat ->
  (n0 + length (dequeue_trace n g s) <= length g)%nat.
Proof.
  induction n as [|n IH]; intros s n0 Hs Hn;
    pose proof (stored_set_size g (bfs_visited s) (bfs_head_ok_stored _ Hs));
    simpl; [lia|].
  destruct (bfs_cond s) eqn:Hc; [|simpl; lia].
  destruct (bfs_cond_true_inv _ Hs Hc) as (lvl & c & q & I & Hq).
  rewrite Hq. cbn [length].
  specialize (IH (bfs_body g s) (S n0)).
  rewrite Nat.add_succ_r. apply IH.
  - by eapply bfs_body_ok.
  - by apply bfs_body_count.
Qed.

(** The loop makes exactly as many iterations as the trace has entries. *)
Lemma bfs_loop_trace budget : forall s s',
  bfs_loop budget g s = Some s' ->
  bfs_loop (length (dequeue_trace budget g s)) g s = Some s'.
Proof.
  induction budget as [|b IH]; intros s s'; cbn [bfs_loop dequeue_trace].
  - destruct (bfs_cond s) eqn:Hc; [done|].
    cbn [length bfs_loop]. by rewrite Hc.
  - destruct (bfs_cond s) eqn:Hc.
    + destruct (bfs_q s) as [|c q] eqn:Hq.
      { unfold bfs_cond in Hc. by rewrite Hq in Hc. }
      intros H. cbn [length bfs_loop]. rewrite Hc. by apply IH.
    + cbn [length bfs_loop]. by rewrite Hc.
Qed.

Lemma dequeue_trace_stored n : forall s,
  bfs_head_ok g v s ->
  forall x, x ∈ dequeue_trace n g s -> is_Some (get_heap_object g x).
Proof.
  induction n as [|n IH]; intros s Hs x; simpl; [by intros ?%elem_of_nil|].
  destruct (bfs_cond s) eqn:Hc; [|by intros ?%elem_of_nil].
  destruct (bfs_cond_true_inv _ Hs Hc) as (lvl & c & q & I & Hq).
  rewrite Hq. intros [->|Hx]%elem_of_cons.
  - apply (inv_stored I), (inv_q_visited I).
    rewrite Hq. by left.
  - eapply IH; [|exact Hx]. by eapply bfs_body_ok.
Qed.

(** ** No node is enqueued twice *)

(** The scan appends to the queue only nodes it has just marked. *)
Lemma scan_refs_queue c refs : forall s,
  exists new,
    bfs_q (scan_refs g c refs s) = bfs_q s ++ new /\ NoDup new /\
    (forall x, x ∈ new -> x ∉ bfs_visited s) /\
    (forall x, x ∈ new -> x ∈ bfs_visited (scan_refs g c refs s)) /\
    (forall x, x ∈ bfs_visited s -> x ∈ bfs_visited (scan_refs g c refs s)).
Proof.
  induction refs as [|ref rest IH]; intros s; simpl.
  - exists []. rewrite app_nil_r. split_and!; auto using NoDup_nil_2;
      by intros x ?%elem_of_nil.
  - destruct (decide (ref ∈ bfs_visited s)) as [Hvis|Hnew]; [apply IH|].
    destruct (root_at g ref).
    + exists []. bfs_simpl. rewrite app_nil_r.
      split_and!; auto using NoDup_nil_2; try (by intros x ?%elem_of_nil).
      intros x Hx. by apply elem_of_union_r.
    + destruct (IH (mkBfs (bfs_q s ++ [ref]) ({[ref]} ∪ bfs_visited s)
           (<[ref := c]> (bfs_parent s)) (bfs_cur s) (bfs_found s)))
        as (new & Hq & Hnd & Hfresh & Hin & Hmono). bfs_simpl.
      exists (ref :: new). split_and!.
      * by rewrite Hq, <- app_assoc.
      * apply NoDup_cons. split; [|done]. intros Hx.
        apply (Hfresh ref Hx). apply elem_of_union_l. by apply elem_of_singleton.
      * intros x [->|Hx]%elem_of_cons; [done|].
        intros Hv. apply (Hfresh x Hx). by apply elem_of_union_r.
      * intros x [->|Hx]%elem_of_cons; [|by apply Hin].
        apply Hmono, elem_of_union_l. by apply elem_of_singleton.
      * intros x Hx. by apply Hmono, elem_of_union_r.
Qed.

Lemma dequeue_trace_NoDup n : forall s (D : gset N),
  NoDup (bfs_q s) ->
  (forall x, x ∈ bfs_q s -> x ∈ bfs_visited s) ->
  (forall x, x ∈ D -> x ∈ bfs_visited s /\ x ∉ bfs_q s) ->
  NoDup (dequeue_trace n g s) /\
  forall x, x ∈ dequeue_trace n g s -> x ∉ D.
Proof.
  induction n as [|n IH]; intros s D Hnd Hqv HD; cbn [dequeue_trace].
  { split; [apply NoDup_nil_2|]. by intros x ?%elem_of_nil. }
  destruct (bfs_cond s); [|split; [apply NoDup_nil_2|by intros x ?%elem_of_nil]].
  unfold bfs_body. destruct (bfs_q s) as [|c q] eqn:Hq.
  { split; [apply NoDup_nil_2|]. by intros x ?%elem_of_nil. }
  apply NoDup_cons in Hnd as [Hcq Hnd].
  destruct (scan_refs_queue c (refs_of g c)
    (mkBfs q (bfs_visited s) (bfs_parent s) (Some c) (bfs_found s)))
    as (new & Hq' & Hnew & Hfresh & Hin & Hmono). bfs_simpl.
  destruct (IH (scan_refs g c (refs_of g c)
    (mkBfs q (bfs_visited s) (bfs_parent s) (Some c) (bfs_found s)))
    ({[c]} ∪ D)) as [IH1 IH2].
  - rewrite Hq'. apply NoDup_app. split_and!; auto.
    intros x Hx Hx'. apply (Hfresh x Hx'), Hqv. by right.
  - intros x. rewrite Hq'. intros [Hx|Hx]%elem_of_app; [|by apply Hin].
    apply Hmono, Hqv. by right.
  - intros x [Hx|Hx]%elem_of_union.
    + apply elem_of_singleton in Hx as ->. split.
      * apply Hmono, Hqv. by left.
      * rewrite Hq'. intros [Hx|Hx]%elem_of_app; [done|].
        apply (Hfresh c Hx), Hqv. by left.
    + destruct (HD x Hx) as [Hv Hnq]. split; [by apply Hmono|].
      rewrite Hq'. intros [Hx'|Hx']%elem_of_app.
      * apply Hnq. by right.
      * by apply (Hfresh x Hx').
  - split.
    + apply NoDup_cons. split; [|done]. intros Hx.
      apply (IH2 c Hx). apply elem_of_union_l. by apply elem_of_singleton.
    + intros x [->|Hx]%elem_of_cons.
      * intros Hc. destruct (HD c Hc) as [_ Hnq]. apply Hnq. by left.
      * intros HxD. apply (IH2 x Hx). by apply elem_of_union_r.
Qed.

(** ** Path reconstruction *)

Lemma walk_parents_None budget parent :
  walk_parents budget parent None = Some [].
Proof. by destruct budget. Qed.

Lemma walk_parents_ok (lvl : N -> nat) (V : gset N) (parent : gmap N N) :
  parent !! v = None -> lvl v = O ->
  (forall x, x ∈ V -> x ≠ v ->
     exists y, parent !! x = Some y /\ y ∈ V /\
               x ∈ refs_of g y /\ lvl x = S (lvl y)) ->
  forall budget x, x ∈ V -> (lvl x < budget)%nat ->
  exists p, walk_parents budget parent (Some x) = Some (x :: p) /\
            length (x :: p) = S (lvl x) /\
            last (x :: p) = Some v /\ ref_chain g (x :: p).
Proof.
  intros Hpv Hl0 Htree. induction budget as [|b IH]; intros x Hx Hb; [lia|].
  cbn [walk_parents]. destruct (decide (x = v)) as [->|Hne].
  - rewrite Hpv, walk_parents_None. exists []. rewrite Hl0. by split_and!.
  - destruct (Htree x Hx Hne) as (y & Hp & Hy & He & Hl).
    destruct (IH y Hy) as (p & Hw & Hlen & Hlast & Hch); [lia|].
    rewrite Hp, Hw. exists (y :: p). split_and!.
    + done.
    + cbn [length] in *. lia.
    + by rewrite last_cons_cons.
    + by split.
Qed.

(** A sequence in root-to-start order, read backwards, is a path in the
    search direction. *)
Lemma ref_chain_hops : forall p r,
  ref_chain g (r :: p) -> last (r :: p) = Some v ->
  hops g v (length p) r.
Proof.
  induction p as [|b p IH]; intros r Hch Hlast.
  - cbn in Hlast. injection Hlast as ->. constructor.
  - destruct Hch as [He Hch]. rewrite last_cons_cons in Hlast.
    cbn [length]. econstructor; [|exact He]. by apply IH.
Qed.

End Search.

(* ================================================================== *)
(** * The search as a whole *)

Lemma root_path_run g v :
  is_Some (get_heap_object g v) ->
  exists s, bfs_loop (length g) g (bfs_init v) = Some s /\
            bfs_head_ok g v s /\ bfs_cond s = false.
Proof.
  intros Hv.
  assert (bfs_head_ok g v (bfs_init v)) as H0.
  { left. eexists. by apply bfs_init_inv. }
  destruct (bfs_loop_total g v (length g) (bfs_init v) O H0) as [s Hs].
  - bfs_simpl. rewrite size_singleton. cbn [length]. lia.
  - lia.
  - exists s. split; [done|]. by eapply bfs_loop_ok.
Qed.

(** The two outcomes of the search from a stored node. *)
Lemma root_path_cases g v :
  is_Some (get_heap_object g v) ->
  (root_path g v = Some (RootPathNone v) /\
   (exists s, bfs_loop (length g) g (bfs_init v) = Some s /\
              bfs_q s = [] /\ bfs_found s = false) /\
   (forall k x, hops g v k x -> x ≠ v -> root_at g x = false))
  \/
  (exists r p,
     root_path g v = Some (RootPathFound v (r :: p)) /\
     (exists s, bfs_loop (length g) g (bfs_init v) = Some s /\
                bfs_found s = true) /\
     last (r :: p) = Some v /\ root_at g r = true /\ r ≠ v /\
     ref_chain g (r :: p) /\
     (forall k r', hops g v k r' -> root_at g r' = true -> r' ≠ v ->
        (length p <= k)%nat)).
Proof.
  intros Hv. destruct (root_path_run g v Hv) as (s & Hloop & Hok & Hc).
  unfold root_path, root_path_budget. rewrite Hloop. cbn [mbind option_bind].
  destruct Hok as [[lvl I]|P].
  - left. rewrite (inv_found I). cbn [negb].
    assert (bfs_q s = []) as Hq.
    { unfold bfs_cond in Hc. rewrite (inv_found I) in Hc.
      by destruct (bfs_q s). }
    split_and!; [done| |].
    + exists s. split_and!; auto. apply I.
    + intros k x Hk Hne.
      pose proof (bfs_exhausted _ _ _ _ _ _ I Hq Hk) as Hx.
      by destruct (inv_tree I x Hx Hne) as (y & _ & _ & _ & _ & ?).
  - right. rewrite (post_found P). cbn [negb].
    destruct (post_root P)
      as (r & lvl & Hcur & Hr & Hne & Hroot & Hvv & Hl0 & Hpv & Htree & Hmin
          & Hsz & Hst).
    destruct (walk_parents_ok g v lvl (bfs_visited s) (bfs_parent s)
                Hpv Hl0 Htree (length g) r Hr) as (p & Hw & Hlen & Hlast & Hch).
    { pose proof (Hsz r Hr). pose proof (stored_set_size g _ Hst). lia. }
    exists r, p. rewrite Hcur, Hw. cbn [mbind option_bind].
    split_and!; auto.
    + exists s. split; [done|]. apply P.
    + intros k r' Hk Hr' Hne'. specialize (Hmin k r' Hk Hr' Hne').
      cbn [length] in Hlen. lia.
Qed.

Lemma get_ruby_heap_obj_arg_stored strtoull g args obj :
  get_ruby_heap_obj_arg strtoull g args = inr obj ->
  get_heap_object g (get_addr obj) = Some obj.
Proof.
  unfold get_ruby_heap_obj_arg. destruct args as [a|]; [|done].
  destruct (String.length a =? 0)%nat; [done|].
  destruct (strtoull a =? 0); [done|].
  destruct (get_heap_object g (strtoull a)) as [o|] eqn:Ho; [|done].
  intros [= <-]. by rewrite (get_heap_object_addr _ _ _ Ho).
Qed.

(** The loops give the same result under every budget that lets them end. *)
Lemma bfs_loop_budget_irrelevant g b1 : forall b2 s s1 s2,
  bfs_loop b1 g s = Some s1 -> bfs_loop b2 g s = Some s2 -> s1 = s2.
Proof.
  induction b1 as [|b1 IH]; intros [|b2] s s1 s2; simpl;
    destruct (bfs_cond s); try congruence.
  apply IH.
Qed.

Lemma walk_parents_budget_irrelevant parent b1 : forall b2 cur p1 p2,
  walk_parents b1 parent cur = Some p1 ->
  walk_parents b2 parent cur = Some p2 -> p1 = p2.
Proof.
  induction b1 as [|b1 IH]; intros [|b2] [c|] p1 p2; simpl; try congruence.
  destruct (walk_parents b1 parent (parent !! c)) as [q1|] eqn:H1; [|done].
  destruct (walk_parents b2 parent (parent !! c)) as [q2|] eqn:H2; [|done].
  simpl. intros [= <-] [= <-]. f_equal. by eapply IH.
Qed.

Lemma root_path_budget_irrelevant g v b1 w1 b2 w2 o1 o2 :
  root_path_budget b1 w1 g v = Some o1 ->
  root_path_budget b2 w2 g v = Some o2 -> o1 = o2.
Proof.
  unfold root_path_budget.
  destruct (bfs_loop b1 g (bfs_init v)) as [s1|] eqn:H1; [|done].
  destruct (bfs_loop b2 g (bfs_init v)) as [s2|] eqn:H2; [|done].
  rewrite (bfs_loop_budget_irrelevant _ _ _ _ _ _ H1 H2).
  cbn [mbind option_bind]. destruct (negb (bfs_found s2)); [congruence|].
  destruct (walk_parents w1 _ _) as [p1|] eqn:W1; [|done].
  destruct (walk_parents w2 _ _) as [p2|] eqn:W2; [|done].
  rewrite (walk_parents_budget_irrelevant _ _ _ _ _ _ W1 W2).
  cbn [mbind option_bind]. congruence.
Qed.

Lemma cmd_rootpath_total strtoull g args :
  is_Some (cmd_rootpath strtoull g args).
Proof.
  unfold cmd_rootpath, cmd_rootpath_budget.
  destruct (get_ruby_heap_obj_arg strtoull g args) as [e|obj] eqn:Ha; [done|].
  apply get_ruby_heap_obj_arg_stored in Ha.
  fold (root_path g (get_addr obj)).
  destruct (root_path_cases g (get_addr obj)) as [[H _]|(r & p & H & _)];
    [by eexists| |]; by rewrite H.
Qed.

(** A successful search, spelled out. *)
Lemma cmd_rootpath_found strtoull g args v p :
  cmd_rootpath strtoull g args = Some (RootPathFound v p) ->
  exists r rest, p = r :: rest /\ last p = Some v /\ root_at g r = true /\
    r ≠ v /\ ref_chain g p /\
    (forall k r', hops g v k r' -> root_at g r' = true -> r' ≠ v ->
       (length rest <= k)%nat).
Proof.
  unfold cmd_rootpath, cmd_rootpath_budget.
  destruct (get_ruby_heap_obj_arg strtoull g args) as [e|obj] eqn:Ha; [done|].
  apply get_ruby_heap_obj_arg_stored in Ha.
  fold (root_path g (get_addr obj)). intros H.
  destruct (root_path_cases g (get_addr obj))
    as [[H' _]|(r & rest & H' & _ & Hlast & Hroot & Hne & Hch & Hmin)];
    [by eexists| |]; rewrite H' in H; [done|].
  injection H as <- <-. by exists r, rest.
Qed.

Lemma ref_chain_lookup g : forall p i a b,
  ref_chain g p -> p !! i = Some a -> p !! S i = Some b -> a ∈ refs_of g b.
Proof.
  induction p as [|x p IH]; intros i a b Hch Ha Hb; [done|].
  destruct p as [|y p]; [done|]. destruct Hch as [He Hch].
  destruct i as [|i]; cbn in Ha, Hb.
  - by injection Ha as <-; injection Hb as <-.
  - by eapply IH.
Qed.

Lemma hops_out_path g v k x : hops g v k x -> out_path g v k x.
Proof.
  induction 1 as [|k y z H IH Hz]; [constructor|].
  destruct (refs_of_out_refs _ _ _ Hz) as (oy & Hy & Hin).
  econstructor; eauto. by eapply refs_of_stored.
Qed.

(* ================================================================== *)
(** * rootpath: the properties *)

(** C1 (as amended). When [rootpath] succeeds for a queried node [v], the
    sequence it prints starts at a root-flagged node other than [v] and ends
    at [v] (root-to-start order), each node being a reference of the next
    one; its hop count is the least over all paths in the search direction
    from [v] to a root-flagged node other than [v] itself, that is the depth
    at which the search first meets such a node. *)
Theorem rootpath_shortest_to_other_root strtoull g args v p :
  cmd_rootpath strtoull g args = Some (RootPathFound v p) ->
  exists r rest,
    p = r :: rest /\ last p = Some v /\ ref_chain g p /\
    root_at g r = true /\ r ≠ v /\
    hops g v (length rest) r /\
    (forall k r', hops g v k r' -> root_at g r' = true -> r' ≠ v ->
       (length rest <= k)%nat).
Proof.
  intros H.
  destruct (cmd_rootpath_found _ _ _ _ _ H)
    as (r & rest & -> & Hlast & Hroot & Hne & Hch & Hmin).
  exists r, rest. split_and!; auto. by apply ref_chain_hops.
Qed.

Lemma rootpath_shortest_to_other_root_witness :
  cmd_rootpath strtoull_dec cycle_graph (Some "2"%string)
    = Some (RootPathFound 2 [1; 2]) /\
  exists r rest,
    [1; 2] = r :: rest /\ last [1; 2] = Some 2 /\
    ref_chain cycle_graph [1; 2] /\
    root_at cycle_graph r = true /\ r ≠ 2 /\
    hops cycle_graph 2 (length rest) r /\
    (forall k r', hops cycle_graph 2 k r' -> root_at cycle_graph r' = true ->
       r' ≠ 2 -> (length rest <= k)%nat).
Proof.
  split; [by vm_compute|].
  apply (rootpath_shortest_to_other_root strtoull_dec cycle_graph
           (Some "2"%string)).
  by vm_compute.
Defined.

(** C1 as stated fails for a root-flagged start node: from node 1 of
    [cycle_graph] the search answers with the three-hop path to root 4,
    although the root-flagged node 1 is two hops (1 -> 2 -> 1), and zero
    hops, away from the start. *)
Lemma rootpath_not_shortest_from_root :
  cmd_rootpath strtoull_dec cycle_graph (Some "1"%string)
    = Some (RootPathFound 1 [4; 3; 2; 1]) /\
  ~ (forall k r', hops cycle_graph 1 k r' -> root_at cycle_graph r' = true ->
       (length [3; 2; 1] <= k)%nat).
Proof.
  split; [by vm_compute|].
  intros H. specialize (H 2%nat 1).
  assert (hops cycle_graph 1 2 1) as Hh.
  { apply (hops_S _ _ _ 2); [apply (hops_S _ _ _ 1); [constructor|]|];
      apply list_elem_of_In; vm_compute; tauto. }
  specialize (H Hh eq_refl). cbn in H. lia.
Qed.

(** C2. The search moves along outgoing references only: when [rootpath]
    succeeds for [v], every printed node is one of the declared [out_refs]
    of the node printed after it, so a root-flagged node is reached from [v]
    by following [out_refs] forward over at least one hop. *)
Theorem rootpath_follows_out_refs strtoull g args v p :
  cmd_rootpath strtoull g args = Some (RootPathFound v p) ->
  exists r rest,
    p = r :: rest /\ root_at g r = true /\
    (0 < length rest)%nat /\ out_path g v (length rest) r /\
    (forall i a b, p !! i = Some a -> p !! S i = Some b ->
       exists ob, get_heap_object g b = Some ob /\ a ∈ out_refs ob).
Proof.
  intros H.
  destruct (cmd_rootpath_found _ _ _ _ _ H)
    as (r & rest & -> & Hlast & Hroot & Hne & Hch & Hmin).
  exists r, rest. split_and!; auto.
  - destruct rest; [|cbn; lia]. cbn in Hlast. congruence.
  - by apply hops_out_path, ref_chain_hops.
  - intros i a b Ha Hb.
    by apply refs_of_out_refs, (ref_chain_lookup g (r :: rest) i).
Qed.

Lemma rootpath_follows_out_refs_witness :
  cmd_rootpath strtoull_dec cycle_graph (Some "1"%string)
    = Some (RootPathFound 1 [4; 3; 2; 1]) /\
  exists r rest,
    [4; 3; 2; 1] = r :: rest /\ root_at cycle_graph r = true /\
    (0 < length rest)%nat /\ out_path cycle_graph 1 (length rest) r /\
    (forall i a b, [4; 3; 2; 1] !! i = Some a -> [4; 3; 2; 1] !! S i = Some b ->
       exists ob, get_heap_object cycle_graph b = Some ob /\ a ∈ out_refs ob).
Proof.
  split; [by vm_compute|].
  apply (rootpath_follows_out_refs strtoull_dec cycle_graph (Some "1"%string)).
  by vm_compute.
Defined.

(** The example of the specification: B (0x3) is retained by the root R
    through R -> A -> B, yet [rootpath] finds nothing for it, because B has
    no outgoing reference. *)
Example rootpath_ignores_incoming_refs :
  out_path example_graph 1 2 3 /\ root_at example_graph 1 = true /\
  cmd_rootpath strtoull_dec example_graph (Some "3"%string)
    = Some (RootPathNone 3).
Proof.
  split_and!; [|done|by vm_compute].
  eapply (out_path_S _ _ _ 2); [eapply (out_path_S _ _ _ 1); [constructor|..]|..];
    try (by vm_compute); try (by eexists; vm_compute);
    apply list_elem_of_In; vm_compute; tauto.
Qed.

(** C6. For a resolved node [v], [rootpath] always returns an outcome; the
    outcome is "could not find path to root" exactly when the loop ends with
    an empty queue and [found] still false; and this is the outcome whenever
    no root-flagged node can be reached from [v]. *)
Theorem rootpath_no_path_iff_queue_exhausted strtoull g args obj :
  get_ruby_heap_obj_arg strtoull g args = inr obj ->
  is_Some (cmd_rootpath strtoull g args) /\
  (cmd_rootpath strtoull g args = Some (RootPathNone (get_addr obj)) <->
   exists s, bfs_loop (length g) g (bfs_init (get_addr obj)) = Some s /\
             bfs_q s = [] /\ bfs_found s = false) /\
  ((forall k r, hops g (get_addr obj) k r -> root_at g r = false) ->
   cmd_rootpath strtoull g args = Some (RootPathNone (get_addr obj))).
Proof.
  intros Ha. split; [apply cmd_rootpath_total|].
  unfold cmd_rootpath, cmd_rootpath_budget. rewrite Ha.
  apply get_ruby_heap_obj_arg_stored in Ha.
  fold (root_path g (get_addr obj)). split.
  - split.
    + intros H.
      destruct (root_path_cases g (get_addr obj))
        as [(_ & Hs & _)|(r & p & H' & _)]; [by eexists|done|congruence].
    + intros (s & Hl & _ & Hf). unfold root_path, root_path_budget.
      rewrite Hl. cbn [mbind option_bind]. by rewrite Hf.
  - intros Hno.
    destruct (root_path_cases g (get_addr obj))
      as [(H & _)|(r & p & _ & _ & Hlast & Hroot & _ & Hch & _)];
      [by eexists|done|].
    pose proof (ref_chain_hops _ _ _ _ Hch Hlast) as Hh.
    apply Hno in Hh. congruence.
Qed.

Lemma rootpath_no_path_iff_queue_exhausted_witness :
  get_ruby_heap_obj_arg strtoull_dec example_graph (Some "3"%string)
    = inr (mkObj 3 T_STRING 24 false []) /\
  (is_Some (cmd_rootpath strtoull_dec example_graph (Some "3"%string)) /\
   (cmd_rootpath strtoull_dec example_graph (Some "3"%string)
      = Some (RootPathNone 3) <->
    exists s, bfs_loop (length example_graph) example_graph (bfs_init 3)
                = Some s /\ bfs_q s = [] /\ bfs_found s = false) /\
   ((forall k r, hops example_graph 3 k r -> root_at example_graph r = false) ->
    cmd_rootpath strtoull_dec example_graph (Some "3"%string)
      = Some (RootPathNone 3))).
Proof.
  split; [by vm_compute|].
  apply (rootpath_no_path_iff_queue_exhausted strtoull_dec example_graph
           (Some "3"%string) (mkObj 3 T_STRING 24 false [])).
  by vm_compute.
Defined.

(** The search on pointers runs in step with the search on addresses. *)
Section Layout.
Context (L : layout) (HL : layout_ok L) (g : Graph).

#[local] Instance ptr_of_inj : Inj (=) (=) (ptr_of L).
Proof. intros a b H. by rewrite <- (HL a), <- (HL b), H. Qed.

Lemma bfs_cond_image s : bfs_cond (bfs_image L s) = bfs_cond s.
Proof.
  unfold bfs_cond, bfs_image. cbn [bfs_q bfs_found]. by destruct (bfs_q s).
Qed.

Lemma bfs_init_image a : bfs_init (ptr_of L a) = bfs_image L (bfs_init a).
Proof.
  unfold bfs_init, bfs_image.
  cbn [bfs_q bfs_visited bfs_parent bfs_cur bfs_found fmap list_fmap
       option_fmap option_map].
  by rewrite set_map_singleton_L, fmap_empty, kmap_empty.
Qed.

Lemma scan_refs_image c refs : forall s,
  scan_refs_ptr L g (ptr_of L c) (ptr_of L <$> refs) (bfs_image L s)
  = bfs_image L (scan_refs g c refs s).
Proof.
  induction refs as [|ref refs IH]; intros s; [done|].
  cbn [fmap list_fmap scan_refs_ptr scan_refs].
  assert (ptr_of L ref ∈ bfs_visited (bfs_image L s) <->
          ref ∈ bfs_visited s) as Hin.
  { unfold bfs_image. cbn [bfs_visited]. rewrite elem_of_map. split.
    - intros (x & Hx & Hv). by apply (inj (ptr_of L)) in Hx as ->.
    - intros Hv. by exists ref. }
  destruct (decide (ref ∈ bfs_visited s)) as [Hv|Hv];
    destruct (decide (ptr_of L ref ∈ bfs_visited (bfs_image L s)))
      as [Hv'|Hv']; try tauto.
  - apply IH.
  - unfold root_at_ptr. rewrite HL.
    assert (forall q cur found,
      mkBfs (ptr_of L <$> q)
            ({[ptr_of L ref]} ∪ bfs_visited (bfs_image L s))
            (<[ptr_of L ref := ptr_of L c]> (bfs_parent (bfs_image L s)))
            (ptr_of L <$> cur) found
      = bfs_image L (mkBfs q ({[ref]} ∪ bfs_visited s)
                       (<[ref := c]> (bfs_parent s)) cur found)) as Hst.
    { intros q cur found. unfold bfs_image.
      cbn [bfs_q bfs_visited bfs_parent bfs_cur bfs_found].
      rewrite set_map_union_L, set_map_singleton_L, fmap_insert.
      rewrite kmap_insert; [reflexivity|apply _]. }
    destruct (root_at g ref).
    + by rewrite <- (Hst (bfs_q s) (Some ref) true).
    + rewrite <- IH, <- Hst. unfold bfs_image at 1 4 5.
      cbn [bfs_q bfs_cur bfs_found]. by rewrite fmap_app.
Qed.

Lemma bfs_body_image s :
  bfs_body_ptr L g (bfs_image L s) = bfs_image L (bfs_body g s).
Proof.
  unfold bfs_body_ptr, bfs_body.
  destruct (bfs_q s) as [|c q] eqn:Hq.
  - unfold bfs_image at 1. cbn [bfs_q]. by rewrite Hq.
  - unfold bfs_image at 1 2 3 4. cbn [bfs_q bfs_visited bfs_parent bfs_found].
    rewrite Hq. cbn [fmap list_fmap]. unfold refs_at. rewrite HL.
    by rewrite <- scan_refs_image.
Qed.

Lemma bfs_loop_image b : forall s,
  bfs_loop_ptr b L g (bfs_image L s) = bfs_image L <$> bfs_loop b g s.
Proof.
  induction b as [|b IH]; intros s; cbn [bfs_loop_ptr bfs_loop];
    rewrite bfs_cond_image; destruct (bfs_cond s); try done.
  by rewrite bfs_body_image, IH.
Qed.

Lemma walk_parents_image b (parent : gmap N N) : forall cur : option N,
  walk_parents b (kmap (M2 := gmap N) (ptr_of L) (ptr_of L <$> parent))
    (ptr_of L <$> cur)
  = (fun p : list N => ptr_of L <$> p) <$> walk_parents b parent cur.
Proof.
  induction b as [|b IH]; intros [c|]; cbn [walk_parents fmap option_fmap
    option_map]; try done.
  rewrite lookup_kmap by apply _. rewrite lookup_fmap, IH.
  by destruct (walk_parents b parent (parent !! c)).
Qed.

Lemma root_path_in_image b w v :
  root_path_in L b w g (ptr_of L v) = root_path_budget b w g v.
Proof.
  unfold root_path_in, root_path_budget.
  rewrite bfs_init_image, bfs_loop_image, HL.
  destruct (bfs_loop b g (bfs_init v)) as [s|]; [|done].
  cbn [fmap option_fmap option_map mbind option_bind].
  unfold bfs_image at 1. cbn [bfs_found].
  destruct (bfs_found s); cbn [negb]; [|done].
  unfold bfs_image. cbn [bfs_parent bfs_cur]. rewrite walk_parents_image.
  destruct (walk_parents w (bfs_parent s) (bfs_cur s)) as [p|]; [|done].
  cbn [fmap option_fmap option_map mbind option_bind].
  rewrite <- list_fmap_compose.
  assert (obj_at L ∘ ptr_of L <$> p = p) as ->; [|done].
  clear -HL. induction p as [|a p IH]; [done|].
  rewrite fmap_cons, IH. unfold compose. by rewrite HL.
Qed.

Lemma cmd_rootpath_in_image b w strtoull args :
  cmd_rootpath_in L b w strtoull g args
  = cmd_rootpath_budget b w strtoull g args.
Proof.
  unfold cmd_rootpath_in, cmd_rootpath_budget.
  destruct (get_ruby_heap_obj_arg strtoull g args); [done|].
  apply root_path_in_image.
Qed.
End Layout.

Lemma cmd_rootpath_budget_same strtoull g args b w o :
  cmd_rootpath_budget b w strtoull g args = Some o ->
  cmd_rootpath strtoull g args = Some o.
Proof.
  intros H. destruct (cmd_rootpath_total strtoull g args) as [o' Ho].
  rewrite Ho. f_equal. revert H Ho. unfold cmd_rootpath, cmd_rootpath_budget.
  destruct (get_ruby_heap_obj_arg strtoull g args) as [e|obj]; [congruence|].
  intros H Ho. by eapply root_path_budget_irrelevant.
Qed.

Lemma shifted_layout_ok : layout_ok shifted_layout.
Proof. intros a. unfold shifted_layout. cbn [ptr_of obj_at]. lia. Qed.

Lemma strided_layout_ok : layout_ok strided_layout.
Proof.
  intros a. unfold strided_layout. cbn [ptr_of obj_at].
  symmetry. apply (N.div_unique _ _ _ 8); lia.
Qed.

(** C8. [rootpath] is a function of the graph and the queried node.  Two
    runs of the program on the same unchanged graph hold the objects at
    different places in memory, so the pointers that [cmd_rootpath] queues,
    inserts into its hash set and uses as keys of its hash map differ from
    run to run; the order of an object's references belongs to the graph.
    Whatever the two layouts and however long the runs are allowed to go
    on, two runs that come to an end print the same outcome (the same
    failure, or the same addresses in the same order), and a run allowed
    one iteration per stored object does come to an end with it. *)
Theorem rootpath_deterministic L1 L2 strtoull g args b1 w1 b2 w2 o1 o2 :
  layout_ok L1 -> layout_ok L2 ->
  cmd_rootpath_in L1 b1 w1 strtoull g args = Some o1 ->
  cmd_rootpath_in L2 b2 w2 strtoull g args = Some o2 ->
  o1 = o2 /\
  cmd_rootpath_in L1 (length g) (length g) strtoull g args = Some o1 /\
  cmd_rootpath_in L2 (length g) (length g) strtoull g args = Some o1 /\
  (forall v, root_path_in L1 (length g) (length g) g (ptr_of L1 v)
             = root_path_in L2 (length g) (length g) g (ptr_of L2 v)).
Proof.
  intros HL1 HL2 H1 H2.
  rewrite cmd_rootpath_in_image in H1, H2 by done.
  apply cmd_rootpath_budget_same in H1, H2.
  rewrite !cmd_rootpath_in_image by done. fold (cmd_rootpath strtoull g args).
  split_and!; [congruence|done|done|].
  intros v. by rewrite !root_path_in_image.
Qed.

Lemma rootpath_deterministic_witness :
  (layout_ok shifted_layout /\ layout_ok strided_layout /\
   cmd_rootpath_in shifted_layout 3 4 strtoull_dec cycle_graph
     (Some "1"%string) = Some (RootPathFound 1 [4; 3; 2; 1]) /\
   cmd_rootpath_in strided_layout 7 9 strtoull_dec cycle_graph
     (Some "1"%string) = Some (RootPathFound 1 [4; 3; 2; 1])) /\
  (RootPathFound 1 [4; 3; 2; 1] = RootPathFound 1 [4; 3; 2; 1] /\
   cmd_rootpath_in shifted_layout (length cycle_graph) (length cycle_graph)
     strtoull_dec cycle_graph (Some "1"%string)
     = Some (RootPathFound 1 [4; 3; 2; 1]) /\
   cmd_rootpath_in strided_layout (length cycle_graph) (length cycle_graph)
     strtoull_dec cycle_graph (Some "1"%string)
     = Some (RootPathFound 1 [4; 3; 2; 1]) /\
   (forall v,
      root_path_in shifted_layout (length cycle_graph) (length cycle_graph)
        cycle_graph (ptr_of shifted_layout v)
      = root_path_in strided_layout (length cycle_graph) (length cycle_graph)
          cycle_graph (ptr_of strided_layout v))).
Proof.
  split.
  - split_and!; [apply shifted_layout_ok|apply strided_layout_ok| |];
      by vm_compute.
  - apply (rootpath_deterministic shifted_layout strided_layout strtoull_dec
             cycle_graph (Some "1"%string) 3 4 7 9);
      [apply shifted_layout_ok|apply strided_layout_ok| |]; by vm_compute.
Defined.

(** The queue and the pointers of two runs differ although what they print
    is the same. *)
Example rootpath_layouts_differ :
  bfs_loop_ptr 4 shifted_layout cycle_graph
    (bfs_init (ptr_of shifted_layout 1))
  ≠ bfs_loop_ptr 4 strided_layout cycle_graph
      (bfs_init (ptr_of strided_layout 1)) /\
  root_path_in shifted_layout 4 4 cycle_graph (ptr_of shifted_layout 1)
  = root_path_in strided_layout 4 4 cycle_graph (ptr_of strided_layout 1).
Proof. split; [|by vm_compute]. vm_compute. intros [=]. Qed.

(** C9. A root-flagged start node is put in the visited set before the loop
    and is never tested for root-ness: a successful search from it ends at
    a root-flagged node other than itself, at least one hop away, and when
    no other root-flagged node can be reached from it the outcome is "could
    not find path to root". *)
Theorem rootpath_start_never_tested strtoull g args obj :
  get_ruby_heap_obj_arg strtoull g args = inr obj ->
  is_root_object obj = true ->
  root_at g (get_addr obj) = true /\
  get_addr obj ∈ bfs_visited (bfs_init (get_addr obj)) /\
  (forall p, cmd_rootpath strtoull g args
               = Some (RootPathFound (get_addr obj) p) ->
     exists r rest, p = r :: rest /\ rest ≠ [] /\ r ≠ get_addr obj /\
       root_at g r = true /\ hops g (get_addr obj) (length rest) r) /\
  ((forall k r, hops g (get_addr obj) k r -> r ≠ get_addr obj ->
      root_at g r = false) ->
   cmd_rootpath strtoull g args = Some (RootPathNone (get_addr obj))).
Proof.
  intros Ha Hroot.
  pose proof (get_ruby_heap_obj_arg_stored _ _ _ _ Ha) as Hst.
  split_and!.
  - unfold root_at. by rewrite Hst.
  - bfs_simpl. by apply elem_of_singleton.
  - intros p H.
    destruct (cmd_rootpath_found _ _ _ _ _ H)
      as (r & rest & -> & Hlast & Hr & Hne & Hch & _).
    exists r, rest. split_and!; auto.
    + intros ->. cbn in Hlast. congruence.
    + by apply ref_chain_hops.
  - intros Hno. unfold cmd_rootpath, cmd_rootpath_budget. rewrite Ha.
    fold (root_path g (get_addr obj)).
    destruct (root_path_cases g (get_addr obj))
      as [(H & _)|(r & p & _ & _ & Hlast & Hr & Hne & Hch & _)];
      [by eexists|done|].
    pose proof (ref_chain_hops _ _ _ _ Hch Hlast) as Hh.
    apply Hno in Hh; congruence.
Qed.

Lemma rootpath_start_never_tested_witness :
  (get_ruby_heap_obj_arg strtoull_dec lone_root_graph (Some "1"%string)
     = inr (mkObj 1 T_OBJECT 40 true [1; 2; 2; 9]) /\
   is_root_object (mkObj 1 T_OBJECT 40 true [1; 2; 2; 9]) = true) /\
  (root_at lone_root_graph 1 = true /\
   1 ∈ bfs_visited (bfs_init 1) /\
   (forall p, cmd_rootpath strtoull_dec lone_root_graph (Some "1"%string)
                = Some (RootPathFound 1 p) ->
      exists r rest, p = r :: rest /\ rest ≠ [] /\ r ≠ 1 /\
        root_at lone_root_graph r = true /\
        hops lone_root_graph 1 (length rest) r) /\
   ((forall k r, hops lone_root_graph 1 k r -> r ≠ 1 ->
       root_at lone_root_graph r = false) ->
    cmd_rootpath strtoull_dec lone_root_graph (Some "1"%string)
      = Some (RootPathNone 1))).
Proof.
  split; [split; by vm_compute|].
  apply (rootpath_start_never_tested strtoull_dec lone_root_graph
           (Some "1"%string) (mkObj 1 T_OBJECT 40 true [1; 2; 2; 9]));
    by vm_compute.
Defined.

(** C10. On every graph, cycles and duplicate references included, the
    search loop ends: no node is dequeued twice, every dequeued node is a
    stored object, so the loop makes at most one iteration per stored
    object, and the command returns. *)
Theorem rootpath_bfs_terminates strtoull g args obj :
  get_ruby_heap_obj_arg strtoull g args = inr obj ->
  NoDup (dequeue_trace (length g) g (bfs_init (get_addr obj))) /\
  (forall x, x ∈ dequeue_trace (length g) g (bfs_init (get_addr obj)) ->
     is_Some (get_heap_object g x)) /\
  (length (dequeue_trace (length g) g (bfs_init (get_addr obj)))
     <= length g)%nat /\
  is_Some (bfs_loop
             (length (dequeue_trace (length g) g (bfs_init (get_addr obj))))
             g (bfs_init (get_addr obj))) /\
  is_Some (cmd_rootpath strtoull g args).
Proof.
  intros Ha. apply get_ruby_heap_obj_arg_stored in Ha.
  assert (is_Some (get_heap_object g (get_addr obj))) as Hst by (by eexists).
  assert (bfs_head_ok g (get_addr obj) (bfs_init (get_addr obj))) as H0.
  { left. eexists. by apply bfs_init_inv. }
  split_and!.
  - apply (dequeue_trace_NoDup g (length g) (bfs_init (get_addr obj)) ∅).
    + bfs_simpl. apply NoDup_singleton.
    + bfs_simpl. intros x ->%list_elem_of_singleton. by apply elem_of_singleton.
    + intros x Hx. by apply not_elem_of_empty in Hx.
  - by eapply dequeue_trace_stored.
  - apply (dequeue_trace_length g (get_addr obj) (length g) _ O H0).
    bfs_simpl. rewrite size_singleton. cbn [length]. lia.
  - destruct (root_path_run g (get_addr obj) Hst) as (s & Hl & _).
    exists s. by apply bfs_loop_trace.
  - apply cmd_rootpath_total.
Qed.

Lemma rootpath_bfs_terminates_witness :
  get_ruby_heap_obj_arg strtoull_dec lone_root_graph (Some "1"%string)
    = inr (mkObj 1 T_OBJECT 40 true [1; 2; 2; 9]) /\
  (NoDup (dequeue_trace (length lone_root_graph) lone_root_graph (bfs_init 1)) /\
   (forall x,
      x ∈ dequeue_trace (length lone_root_graph) lone_root_graph (bfs_init 1) ->
      is_Some (get_heap_object lone_root_graph x)) /\
   (length (dequeue_trace (length lone_root_graph) lone_root_graph (bfs_init 1))
      <= length lone_root_graph)%nat /\
   is_Some (bfs_loop
     (length (dequeue_trace (length lone_root_graph) lone_root_graph
                (bfs_init 1)))
     lone_root_graph (bfs_init 1)) /\
   is_Some (cmd_rootpath strtoull_dec lone_root_graph (Some "1"%string))).
Proof.
  split; [by vm_compute|].
  apply (rootpath_bfs_terminates strtoull_dec lone_root_graph
           (Some "1"%string) (mkObj 1 T_OBJECT 40 true [1; 2; 2; 9])).
  by vm_compute.
Defined.

(* ================================================================== *)
(** * summary: the totals *)

Lemma to_size_t_add_l a b : to_size_t (to_size_t a + b) = to_size_t (a + b).
Proof. unfold to_size_t. by rewrite N.Div0.add_mod_idemp_l. Qed.

Lemma to_size_t_small a : a < SIZE_MAX_plus_1 -> to_size_t a = a.
Proof. intros. unfold to_size_t. by apply N.mod_small. Qed.

(** Both branches of the [if] in the closure amount to one update. *)
Lemma summary_visit_eq total m o :
  summary_visit (total, m) o =
  (size_add total (get_memsize o),
   <[get_type o := size_add (default 0 (m !! get_type o)) (get_memsize o)]> m).
Proof.
  unfold summary_visit.
  destruct (N.eqb_spec (default 0 (m !! get_type o)) 0) as [->|]; by cbn.
Qed.

Lemma sum_memsize_app l1 l2 :
  sum_memsize (l1 ++ l2) = sum_memsize l1 + sum_memsize l2.
Proof.
  unfold sum_memsize. induction l1 as [|o l1 IH]; cbn; [done|].
  rewrite IH. lia.
Qed.

Lemma objects_of_type_app t l1 l2 :
  objects_of_type t (l1 ++ l2) = objects_of_type t l1 ++ objects_of_type t l2.
Proof. apply List.filter_app. Qed.

Lemma sum_memsize_of_type_le t l :
  sum_memsize (objects_of_type t l) <= sum_memsize l.
Proof.
  unfold sum_memsize, objects_of_type.
  induction l as [|o l IH]; cbn; [done|].
  destruct (get_type o =? t); cbn; lia.
Qed.

Lemma sum_per_type_insert (m : gmap N N) k v :
  sum_per_type (<[k := v]> m) + default 0 (m !! k) = v + sum_per_type m.
Proof.
  unfold sum_per_type.
  assert (forall (z1 z2 y : N), z1 + (z2 + y) = z2 + (z1 + y)) as Hcomm
    by (intros; lia).
  destruct (m !! k) as [old|] eqn:Hk; unfold default, from_option, id.
  - rewrite <- (insert_delete_eq m k v).
    rewrite map_fold_insert_L; [|intros; apply Hcomm|apply lookup_delete_eq].
    rewrite (map_fold_delete_L _ _ k old m); [cbv beta; lia|intros; apply Hcomm|done].
  - rewrite map_fold_insert_L; [cbv beta; lia|intros; apply Hcomm|done].
Qed.

(** What the closure has accumulated after any number of objects. *)
Lemma summary_fold_spec l :
  let st := fold_left summary_visit l (0, ∅) in
  st.1 = to_size_t (sum_memsize l) /\
  (forall t, st.2 !! t =
     if decide (objects_of_type t l = []) then None
     else Some (to_size_t (sum_memsize (objects_of_type t l)))) /\
  to_size_t (sum_per_type st.2) = st.1.
Proof.
  induction l as [|o l IH] using rev_ind.
  - cbn. split_and!; [done|intros t; apply lookup_empty|done].
  - rewrite fold_left_app. cbn [fold_left].
    destruct (fold_left summary_visit l (0, ∅)) as [total m].
    cbn [fst snd] in IH. destruct IH as (Ht & Hm & Hs).
    rewrite summary_visit_eq. cbn [fst snd].
    assert (default 0 (m !! get_type o)
            = to_size_t (sum_memsize (objects_of_type (get_type o) l))) as Hold.
    { rewrite Hm. destruct (decide _) as [->|]; by cbn. }
    split_and!.
    + rewrite Ht, sum_memsize_app. unfold size_add. rewrite to_size_t_add_l.
      f_equal. cbn. lia.
    + intros t. rewrite objects_of_type_app. cbn [objects_of_type List.filter].
      destruct (N.eqb_spec (get_type o) t) as [<-|Hne].
      * rewrite lookup_insert_eq, decide_False by (by destruct (objects_of_type _ l)).
        rewrite Hold, sum_memsize_app. unfold size_add.
        rewrite to_size_t_add_l. do 2 f_equal. cbn. lia.
      * rewrite lookup_insert_ne, app_nil_r by done. apply Hm.
    + pose proof (sum_per_type_insert m (get_type o)
        (size_add (default 0 (m !! get_type o)) (get_memsize o))) as Hi.
      set (S' := sum_per_type (<[_ := _]> m)) in *.
      set (old := default 0 (m !! get_type o)) in *.
      unfold size_add, to_size_t in *.
      pose proof (N.div_mod' (old + get_memsize o) SIZE_MAX_plus_1) as Hd.
      set (q := (old + get_memsize o) / SIZE_MAX_plus_1) in *.
      assert (S' + q * SIZE_MAX_plus_1 = sum_per_type m + get_memsize o) as He
        by lia.
      rewrite <- (N.Div0.mod_add S' q), He.
      rewrite <- Hs. by rewrite N.Div0.add_mod_idemp_l.
Qed.

(** Without overflow the per-type totals add up exactly. *)
Lemma summary_fold_exact l :
  sum_memsize l < SIZE_MAX_plus_1 ->
  sum_per_type (fold_left summary_visit l (0, ∅)).2 = sum_memsize l.
Proof.
  induction l as [|o l IH] using rev_ind; intros Hlt; [done|].
  rewrite sum_memsize_app in *. rewrite fold_left_app. cbn [fold_left].
  destruct (summary_fold_spec l) as (_ & Hm & _).
  destruct (fold_left summary_visit l (0, ∅)) as [total m].
  cbn [fst snd] in *. rewrite summary_visit_eq. cbn [snd].
  assert (sum_memsize [o] = get_memsize o) as Ho by (cbn; lia).
  rewrite Ho in *.
  pose proof (sum_memsize_of_type_le (get_type o) l) as Hle.
  assert (default 0 (m !! get_type o)
          = sum_memsize (objects_of_type (get_type o) l)) as Hold.
  { rewrite Hm. destruct (decide _) as [->|]; [done|].
    cbn. apply to_size_t_small. lia. }
  pose proof (sum_per_type_insert m (get_type o)
    (size_add (default 0 (m !! get_type o)) (get_memsize o))) as Hi.
  unfold size_add in Hi. rewrite to_size_t_small in Hi by lia.
  unfold size_add. rewrite to_size_t_small by lia.
  rewrite IH in Hi by lia. lia.
Qed.

(** C4 (as amended). [summary] keeps its totals in [size_t]: the grand
    total and the entry of every type tag that occurs are the sums of
    [size_bytes] over all stored objects, resp. over those with that tag,
    reduced modulo [2^64] (a tag that does not occur has no entry), and the
    per-type totals add up to the grand total modulo [2^64].  When the sum
    of all sizes is below [2^64] all of these are exact. *)
Theorem summary_totals_modulo g :
  sum_num_heap_objects (cmd_summary g) = length g /\
  sum_total_size (cmd_summary g) = to_size_t (sum_memsize g) /\
  (forall t, sum_type_map (cmd_summary g) !! t =
     if decide (objects_of_type t g = []) then None
     else Some (to_size_t (sum_memsize (objects_of_type t g)))) /\
  to_size_t (sum_per_type (sum_type_map (cmd_summary g)))
    = sum_total_size (cmd_summary g) /\
  (sum_memsize g < SIZE_MAX_plus_1 ->
     sum_total_size (cmd_summary g) = sum_memsize g /\
     (forall t v, sum_type_map (cmd_summary g) !! t = Some v ->
        v = sum_memsize (objects_of_type t g)) /\
     sum_per_type (sum_type_map (cmd_summary g))
       = sum_total_size (cmd_summary g)).
Proof.
  pose proof (summary_fold_spec g) as (Ht & Hm & Hs).
  pose proof (summary_fold_exact g) as He.
  unfold cmd_summary, each_heap_object, get_num_heap_objects.
  destruct (fold_left summary_visit g (0, ∅)) as [total m].
  cbn [fst snd sum_num_heap_objects sum_total_size sum_type_map] in *.
  split_and!; auto.
  intros Hlt. rewrite Ht, (to_size_t_small _ Hlt). split_and!; auto.
  intros t v. rewrite Hm. destruct (decide _); [done|].
  intros [= <-]. apply to_size_t_small.
  pose proof (sum_memsize_of_type_le t g). lia.
Qed.

Lemma summary_totals_modulo_witness :
  sum_memsize example_graph < SIZE_MAX_plus_1 /\
  sum_total_size (cmd_summary example_graph) = sum_memsize example_graph /\
  (forall t v, sum_type_map (cmd_summary example_graph) !! t = Some v ->
     v = sum_memsize (objects_of_type t example_graph)) /\
  sum_per_type (sum_type_map (cmd_summary example_graph))
    = sum_total_size (cmd_summary example_graph).
Proof.
  split; [by vm_compute|].
  apply (summary_totals_modulo example_graph). by vm_compute.
Defined.

(** C4 as stated fails once the sizes overflow [size_t]: on [huge_graph]
    the entry of [T_OBJECT] is 0 while the objects of that type take
    [2^64] bytes, and the per-type totals add up to [2^64] while the grand
    total reads 0. *)
Lemma summary_totals_overflow :
  sum_type_map (cmd_summary huge_graph) !! T_OBJECT = Some 0 /\
  sum_memsize (objects_of_type T_OBJECT huge_graph) = 2 ^ 64 /\
  sum_per_type (sum_type_map (cmd_summary huge_graph)) = 2 ^ 64 /\
  sum_total_size (cmd_summary huge_graph) = 0 /\
  sum_memsize huge_graph = 2 ^ 65.
Proof. by vm_compute. Qed.

(* ================================================================== *)
(** * diff: the records written *)

Lemma diff_fold_spec g stream : forall out,
  fold_left (diff_visit g) stream out
  = out ++ map rec_json (diff_emitted g stream).
Proof.
  unfold diff_emitted.
  induction stream as [|r stream IH]; intros out; cbn [fold_left List.filter map].
  - by rewrite app_nil_r.
  - rewrite IH. unfold diff_visit.
    destruct (diff_is_new g (rec_obj r)); [|done].
    by rewrite <- app_assoc.
Qed.

Lemma diff_is_new_spec g o :
  diff_is_new g o = true <->
  is_root_object o = false /\ get_heap_object g (get_addr o) = None.
Proof.
  unfold diff_is_new.
  destruct (is_root_object o), (get_heap_object g (get_addr o)); cbn;
    intuition congruence.
Qed.

Lemma count_id_filter a (P : parsed_record -> bool) l :
  count_id a (List.filter P l)
  = length (List.filter (fun r => (get_addr (rec_obj r) =? a) && P r) l).
Proof.
  unfold count_id. induction l as [|r l IH]; cbn; [done|].
  destruct (P r), (get_addr (rec_obj r) =? a) eqn:He; cbn; rewrite ?He; cbn;
    by rewrite ?IH.
Qed.

(** C3 (as amended). When the file given to [diff] opens, the text written
    is, in stream order, the original serialized form of exactly those
    records that are not root-flagged and whose id is absent from the
    primary graph, one line per such record.  An id that is stored in the
    primary graph is never written; an id absent from it is written once
    for each record of the stream that carries it and is not root-flagged,
    hence exactly once when the stream holds a single record with that id
    and that record is not root-flagged. *)
Theorem diff_writes_new_records env g path stream :
  String.length path ≠ O ->
  env_fopen env path = Some stream ->
  env_mkstemp env = true -> env_fdopen env = true ->
  cmd_diff env g (Some path)
    = DiffWritten (map rec_json (diff_emitted g stream)) /\
  (forall r, r ∈ diff_emitted g stream <->
     r ∈ stream /\ is_root_object (rec_obj r) = false /\
     get_heap_object g (get_addr (rec_obj r)) = None) /\
  (forall a, is_Some (get_heap_object g a) ->
     count_id a (diff_emitted g stream) = O) /\
  (forall a, get_heap_object g a = None ->
     count_id a (diff_emitted g stream)
     = count_id a
         (List.filter (fun r => negb (is_root_object (rec_obj r))) stream)) /\
  (forall a, get_heap_object g a = None -> count_id a stream = 1%nat ->
     (forall r, r ∈ stream -> get_addr (rec_obj r) = a ->
        is_root_object (rec_obj r) = false) ->
     count_id a (diff_emitted g stream) = 1%nat).
Proof.
  intros Hp Ho Ht Hf.
  assert (forall a, get_heap_object g a = None ->
     count_id a (diff_emitted g stream)
     = count_id a
         (List.filter (fun r => negb (is_root_object (rec_obj r))) stream))
    as Hcount.
  { intros a Ha. unfold diff_emitted. rewrite !count_id_filter.
    f_equal. apply filter_ext. intros r.
    destruct (N.eqb_spec (get_addr (rec_obj r)) a) as [He|]; [|done].
    unfold diff_is_new. by rewrite He, Ha, andb_true_r. }
  split_and!.
  - unfold cmd_diff. rewrite (proj2 (Nat.eqb_neq _ _) Hp), Ho, Ht, Hf.
    cbn [negb]. by rewrite diff_fold_spec.
  - intros r. unfold diff_emitted.
    rewrite !list_elem_of_In, filter_In, diff_is_new_spec. tauto.
  - intros a [o Ha]. unfold diff_emitted. rewrite count_id_filter.
    rewrite (filter_ext _ (fun _ => false)); [by rewrite filter_false|].
    intros r. destruct (N.eqb_spec (get_addr (rec_obj r)) a) as [He|]; [|done].
    unfold diff_is_new. by rewrite He, Ha, andb_false_r.
  - exact Hcount.
  - intros a Ha H1 Hnr. rewrite (Hcount a Ha), <- H1, count_id_filter.
    unfold count_id. f_equal. apply filter_ext_in. intros r Hr.
    destruct (N.eqb_spec (get_addr (rec_obj r)) a) as [He|]; [|done].
    by rewrite (Hnr r (proj2 (list_elem_of_In _ _) Hr) He).
Qed.

Lemma diff_writes_new_records_witness :
  (String.length "second.json" ≠ O /\
   env_fopen sample_env "second.json" = Some second_stream /\
   env_mkstemp sample_env = true /\ env_fdopen sample_env = true) /\
  cmd_diff sample_env example_graph (Some "second.json"%string)
    = DiffWritten ["{address:0x5,type:STRING}"%string;
                   "{address:0x7,type:ARRAY}"%string] /\
  count_id 2 (diff_emitted example_graph second_stream) = O /\
  count_id 5 (diff_emitted example_graph second_stream) = 1%nat.
Proof.
  split; [by vm_compute|].
  destruct (diff_writes_new_records sample_env example_graph
              "second.json" second_stream)
    as (Hout & _ & Hboth & _ & Honce); [by vm_compute..|].
  split_and!.
  - exact Hout.
  - apply Hboth. by eexists.
  - apply Honce; [by vm_compute|by vm_compute|].
    intros r Hr Ha. apply list_elem_of_In in Hr. cbn in Hr.
    destruct Hr as [<-|[<-|[<-|[<-|[]]]]]; try done.
Defined.

(** C3 as stated fails on a stream that repeats a record: object 5 is
    absent from the primary graph and not root-flagged, and [diff] writes
    it twice. *)
Lemma diff_repeats_repeated_record :
  get_heap_object example_graph 5 = None /\
  cmd_diff sample_env example_graph (Some "repeated.json"%string)
    = DiffWritten ["{address:0x5,type:STRING}"%string;
                   "{address:0x5,type:STRING}"%string] /\
  count_id 5 (diff_emitted example_graph repeated_stream) = 2%nat.
Proof. by vm_compute. Qed.

(* ================================================================== *)
(** * The dominator index holds reachable nodes only *)

Lemma root_at_stored g a : root_at g a = true -> is_Some (get_heap_object g a).
Proof. unfold root_at. destruct (get_heap_object g a); [by eexists|done]. Qed.

Lemma dom_succs_reach g n m :
  dreach g n -> m ∈ dom_succs g n -> dreach g m.
Proof.
  destruct n as [a|]; cbn [dom_succs dreach].
  - intros (r & k & Hst & Hr & Hh) (z & -> & Hz)%list_elem_of_fmap.
    exists r, (S k). split_and!; auto. by econstructor.
  - intros _ (r & -> & Hr)%list_elem_of_fmap.
    apply list_elem_of_In, filter_In in Hr as [_ Hr].
    exists r, O. split_and!; auto using root_at_stored. constructor.
Qed.

Lemma dom_dfs_reach g depth : forall n st,
  dreach g n -> (forall x, x ∈ st.2 -> dreach g x) ->
  forall x, x ∈ (dom_dfs depth g n st).2 -> dreach g x.
Proof.
  induction depth as [|d IH]; intros n st Hn Hst; cbn [dom_dfs]; [done|].
  destruct (decide (n ∈ st.1)); [done|]. cbn [snd].
  assert (forall l acc, (forall m, m ∈ l -> dreach g m) ->
            (forall x, x ∈ acc.2 -> dreach g x) ->
            forall x, x ∈ (fold_left (fun acc m => dom_dfs d g m acc) l acc).2 ->
                      dreach g x) as Hfold.
  { induction l as [|m l IHl]; intros acc Hl Hacc; cbn [fold_left]; [done|].
    apply IHl.
    - intros m' Hm'. apply Hl. by right.
    - apply IH; [|done]. apply Hl. by left. }
  intros x [->|Hx]%elem_of_cons; [done|].
  eapply Hfold; [| |exact Hx]; [|done].
  intros m Hm. by eapply dom_succs_reach.
Qed.

Lemma dom_rpo_reach g x : x ∈ dom_rpo g -> dreach g x.
Proof.
  unfold dom_rpo. apply dom_dfs_reach; [done|].
  by intros y ?%elem_of_nil.
Qed.

Lemma dom_intersect_within R idom rpo budget : forall a b,
  idom_within R idom -> R a -> R b -> R (dom_intersect budget idom rpo a b).
Proof.
  induction budget as [|k IH]; intros a b HJ Ha Hb; cbn [dom_intersect]; [done|].
  destruct (decide (a = b)); [done|].
  destruct (rpo_number rpo b <? rpo_number rpo a)%nat.
  - destruct (idom !! a) as [a'|] eqn:Hi; [|done].
    apply IH; auto. by destruct (HJ _ _ Hi).
  - destruct (idom !! b) as [b'|] eqn:Hi; [|done].
    apply IH; auto. by destruct (HJ _ _ Hi).
Qed.

Lemma dom_candidate_within R g idom rpo n d :
  idom_within R idom -> dom_candidate g idom rpo n = Some d -> R d.
Proof.
  intros HJ. unfold dom_candidate. generalize (S (length rpo)). intros budget.
  pose proof (fun m => proj1 (filter_In
    (fun m => bool_decide (n ∈ dom_succs g m) &&
              bool_decide (is_Some (idom !! m))) m (dom_nodes g))) as Hin.
  fold (dom_processed_preds g idom n) in Hin.
  assert (forall m, In m (dom_processed_preds g idom n) -> R m) as HR.
  { intros m Hm. destruct (Hin m Hm) as [_ Hc].
    apply andb_true_iff in Hc as [_ Hc]. apply bool_decide_eq_true in Hc.
    destruct Hc as [v Hv]. by destruct (HJ _ _ Hv). }
  clear Hin. destruct (dom_processed_preds g idom n) as [|p ps]; [done|].
  intros [= <-].
  assert (R p) as Hp by (apply HR; by left).
  assert (forall m, In m ps -> R m) as Hps by (intros; apply HR; by right).
  clear HR. revert p Hp.
  induction ps as [|q ps IHps]; intros p Hp; cbn [fold_left]; [done|].
  apply IHps.
  - intros m Hm. apply Hps. by right.
  - apply (dom_intersect_within R); auto. apply Hps. by left.
Qed.

Lemma dom_pass_within R g rpo idom :
  (forall n, n ∈ rpo -> R n) ->
  idom_within R idom -> idom_within R (dom_pass g rpo idom).1.
Proof.
  intros Hrpo HJ. unfold dom_pass.
  assert (forall n, In n (List.filter (fun n => bool_decide (n ≠ None)) rpo) ->
            R n) as Hl.
  { intros n [Hn _]%filter_In. by apply Hrpo, list_elem_of_In. }
  revert Hl. generalize (List.filter (fun n => bool_decide (n ≠ None)) rpo).
  intros l. change idom with ((idom, false).1) in HJ.
  revert HJ. generalize (idom, false).
  induction l as [|n l IH]; intros st HJ Hl; cbn [fold_left]; [done|].
  apply IH; [|intros; apply Hl; by right].
  destruct (dom_candidate g st.1 rpo n) as [d|] eqn:Hd; [|exact HJ].
  case_decide; [exact HJ|]. cbn [fst].
  intros k v. destruct (decide (n = k)) as [->|Hne].
  - rewrite lookup_insert_eq. intros [= <-]. split.
    + apply Hl. by left.
    + by eapply dom_candidate_within.
  - rewrite lookup_insert_ne by done. apply HJ.
Qed.

Lemma dom_iterate_within R g rpo budget : forall idom,
  (forall n, n ∈ rpo -> R n) ->
  idom_within R idom -> idom_within R (dom_iterate budget g rpo idom).
Proof.
  induction budget as [|k IH]; intros idom Hrpo HJ; cbn [dom_iterate]; [done|].
  pose proof (dom_pass_within R g rpo idom Hrpo HJ) as HJ'.
  destruct (dom_pass g rpo idom) as [idom' changed]. cbn [fst] in HJ'.
  destruct changed; auto.
Qed.

(** Every entry of the index relates nodes reachable from a root. *)
Lemma dom_index_reach g k v :
  dom_index g !! k = Some v -> dreach g k /\ dreach g v.
Proof.
  apply (dom_iterate_within (dreach g)).
  - apply dom_rpo_reach.
  - intros k' v' [<- <-]%lookup_singleton_Some. by split.
Qed.

Lemma get_idom_unreachable g obj :
  ~ reachable_from_root g (get_addr obj) -> get_idom g obj = None.
Proof.
  intros Hn. unfold get_idom.
  destruct (dom_index g !! Some (get_addr obj)) as [v|] eqn:Hi; [|done].
  by destruct (dom_index_reach _ _ _ Hi) as [Hk _].
Qed.

Lemma get_dominators_unreachable g obj :
  ~ reachable_from_root g (get_addr obj) -> get_dominators g obj = [].
Proof.
  intros Hn. unfold get_dominators.
  assert (dom_children g (dom_index g) (get_addr obj) = []) as Hc.
  { unfold dom_children. rewrite (filter_ext _ (fun _ => false));
      [apply filter_false|].
    intros c. apply bool_decide_eq_false. intros Hi.
    by destruct (dom_index_reach _ _ _ Hi) as [_ Hv]. }
  destruct (length g); cbn [dom_subtree]; [done|]. by rewrite Hc.
Qed.

(* ================================================================== *)
(** * idom and dominators: the properties *)

Lemma root_flagged_reachable g obj :
  get_heap_object g (get_addr obj) = Some obj ->
  is_root_object obj = true -> reachable_from_root g (get_addr obj).
Proof.
  intros Hst Hr. exists (get_addr obj), O. split_and!.
  - by eexists.
  - unfold root_at. by rewrite Hst.
  - constructor.
Qed.

(** C5. For a node that is root-flagged, [idom] and [dominators] return
    without output; for a node that no root reaches, [idom] answers "could
    not determine dominator" and [dominators] answers "does not dominate
    any objects".  Either way the commands return, and neither hands out an
    identity as a dominator or a dominated object. *)
Theorem dominance_undefined_for_root_or_unreachable strtoull g args obj :
  get_ruby_heap_obj_arg strtoull g args = inr obj ->
  (is_root_object obj = true ->
     cmd_idom strtoull g args = IdomNothing /\
     cmd_dominators strtoull g args = DomNothing) /\
  (~ reachable_from_root g (get_addr obj) ->
     cmd_idom strtoull g args = IdomUnknown (get_addr obj) /\
     cmd_dominators strtoull g args = DomNone (get_addr obj)) /\
  (is_root_object obj = true \/ ~ reachable_from_root g (get_addr obj) ->
     (forall a d, cmd_idom strtoull g args ≠ IdomFound a d) /\
     (forall a l, cmd_dominators strtoull g args ≠ DomList a l)).
Proof.
  intros Ha.
  pose proof (get_ruby_heap_obj_arg_stored _ _ _ _ Ha) as Hst.
  assert (is_root_object obj = true ->
     cmd_idom strtoull g args = IdomNothing /\
     cmd_dominators strtoull g args = DomNothing) as Hroot.
  { intros Hr. unfold cmd_idom, cmd_dominators. by rewrite Ha, Hr. }
  assert (~ reachable_from_root g (get_addr obj) ->
     cmd_idom strtoull g args = IdomUnknown (get_addr obj) /\
     cmd_dominators strtoull g args = DomNone (get_addr obj)) as Hun.
  { intros Hn. unfold cmd_idom, cmd_dominators. rewrite Ha.
    destruct (is_root_object obj) eqn:Hr.
    { exfalso. by apply Hn, root_flagged_reachable. }
    by rewrite get_idom_unreachable, get_dominators_unreachable. }
  split_and!; [done|done|].
  intros [Hr|Hn].
  - destruct (Hroot Hr) as [-> ->]. by split.
  - destruct (Hun Hn) as [-> ->]. by split.
Qed.

Lemma garbage_graph_unreachable : ~ reachable_from_root garbage_graph 8.
Proof.
  intros (r & k & _ & Hr & Hh). inversion Hh as [|k' y z Hy Hz]; subst.
  - by vm_compute in Hr.
  - destruct (refs_of_out_refs _ _ _ Hz) as (o & Ho & Hin).
    apply get_heap_object_In in Ho. cbn in Ho.
    destruct Ho as [<-|[<-|[<-|[<-|[<-|[]]]]]]; cbn in Hin;
      repeat (apply elem_of_cons in Hin as [Hin|Hin]; [done|]);
      by apply elem_of_nil in Hin.
Qed.

Lemma dominance_undefined_for_root_or_unreachable_witness :
  get_ruby_heap_obj_arg strtoull_dec garbage_graph (Some "8"%string)
    = inr (mkObj 8 T_ARRAY 16 false [3]) /\
  cmd_idom strtoull_dec garbage_graph (Some "8"%string) = IdomUnknown 8 /\
  cmd_dominators strtoull_dec garbage_graph (Some "8"%string) = DomNone 8.
Proof.
  split; [by vm_compute|].
  apply (dominance_undefined_for_root_or_unreachable strtoull_dec
           garbage_graph (Some "8"%string) (mkObj 8 T_ARRAY 16 false [3]));
    [by vm_compute|].
  apply garbage_graph_unreachable.
Defined.

(** On the example of the specification: a root gets no answer, a
    reachable node its immediate dominator and its dominated set. *)
Example dominance_example :
  cmd_idom strtoull_dec example_graph (Some "1"%string) = IdomNothing /\
  cmd_dominators strtoull_dec example_graph (Some "1"%string) = DomNothing /\
  cmd_idom strtoull_dec example_graph (Some "3"%string) = IdomFound 3 2 /\
  cmd_dominators strtoull_dec example_graph (Some "2"%string)
    = DomList 2 [3; 4] /\
  get_dominators example_graph (mkObj 1 T_OBJECT 40 true [2]) = [2; 3; 4].
Proof. by vm_compute. Qed.

(* ================================================================== *)
(** * The process *)

Lemma call_command_total env g f args : is_Some (call_command env g f args).
Proof.
  destruct f; cbn [call_command]; try (by eexists).
  destruct (cmd_rootpath_total (env_strtoull env) g args) as [o ->].
  by eexists.
Qed.

Lemma execute_command_total env g line : is_Some (execute_command env g line).
Proof.
  unfold execute_command.
  destruct (split_command _) as [cmd args].
  destruct (find _ commands_); [apply call_command_total|by eexists].
Qed.

Lemma command_loop_total env g lines : forall exit_,
  is_Some (command_loop env g exit_ lines).
Proof.
  induction lines as [|line rest IH]; intros exit_; cbn [command_loop];
    destruct exit_; try (by eexists).
  destruct (execute_command_total env g line) as [o ->].
  cbn [mbind option_bind orb].
  destruct (IH (sets_exit o)) as [outs ->]. by eexists.
Qed.

(** Every line read before a [quit] is executed, in turn. *)
Lemma command_loop_serves env g lines : forall outs i line,
  command_loop env g false lines = Some outs ->
  lines !! i = Some line ->
  (forall j o, (j < i)%nat -> outs !! j = Some o -> o ≠ OutQuit) ->
  exists o, execute_command env g line = Some o /\ outs !! i = Some o.
Proof.
  induction lines as [|l rest IH]; intros outs i line; cbn [command_loop];
    [done|].
  destruct (execute_command env g l) as [o|] eqn:He; [|done].
  cbn [mbind option_bind orb].
  destruct (command_loop env g (sets_exit o) rest) as [outs'|] eqn:Hl; [|done].
  intros [= <-] Hi Hq. destruct i as [|i]; cbn in Hi.
  - injection Hi as <-. by exists o.
  - assert (sets_exit o = false) as Hs.
    { destruct o; try done. by destruct (Hq O OutQuit (Nat.lt_0_succ _) eq_refl). }
    rewrite Hs in Hl. apply (IH outs' i line Hl Hi).
    intros j o' Hj Ho'. apply (Hq (S j) o'); [lia|done].
Qed.

(** C7 (as amended). The program aborts only at startup: when no snapshot
    file is named on the command line, or on failure to open or read the
    primary snapshot.  Once the primary snapshot is open and read, and as
    long as the lines entered hold a character other than a space, the
    process returns 0 after executing every line it reads up to a [quit] or
    the end of the input: every query-time failure is reported to the
    caller by an outcome of its own (unknown identity, operation undefined
    for a root, no path to root, a diff file that does not open) and the
    next line is still executed. *)
Theorem main_aborts_only_at_startup env argv lines :
  Forall (fun l => blank l = false) lines ->
  is_Some (main env argv lines) /\
  (forall msg, main env argv lines = Some (MainFatal msg) <->
     ((length argv < 2)%nat /\ msg = FatalNoDumpFile) \/
     (exists path, argv !! 1%nat = Some path /\ env_fopen env path = None /\
                   msg = FatalUnableToOpen path) \/
     (exists path, argv !! 1%nat = Some path /\
                   is_Some (env_fopen env path) /\
                   env_read_fails env path = true /\
                   msg = FatalUnableToRead path)) /\
  (forall path heap_file,
     argv !! 1%nat = Some path -> env_fopen env path = Some heap_file ->
     env_read_fails env path = false ->
     exists outs,
       main env argv lines = Some (MainReturn 0 outs) /\
       forall i line, lines !! i = Some line ->
         (forall j o, (j < i)%nat -> outs !! j = Some o -> o ≠ OutQuit) ->
         exists o,
           execute_command env (Graph_build (rec_obj <$> heap_file)) line
             = Some o /\
           outs !! i = Some o) /\
  (forall g args e,
     get_ruby_heap_obj_arg (env_strtoull env) g args = inl e ->
     call_command env g F_print args = Some (OutPrint (inl e)) /\
     call_command env g F_idom args = Some (OutIdom (IdomArgError e)) /\
     call_command env g F_dominators args
       = Some (OutDominators (DomArgError e)) /\
     call_command env g F_rootpath args
       = Some (OutRootpath (RootPathArgError e))) /\
  (forall g args obj,
     get_ruby_heap_obj_arg (env_strtoull env) g args = inr obj ->
     is_root_object obj = true ->
     call_command env g F_idom args = Some (OutIdom IdomNothing) /\
     call_command env g F_dominators args = Some (OutDominators DomNothing)) /\
  (forall g args obj,
     get_ruby_heap_obj_arg (env_strtoull env) g args = inr obj ->
     (forall k r, hops g (get_addr obj) k r -> r ≠ get_addr obj ->
        root_at g r = false) ->
     call_command env g F_rootpath args
       = Some (OutRootpath (RootPathNone (get_addr obj)))) /\
  (forall g path,
     String.length path ≠ O -> env_fopen env path = None ->
     call_command env g F_diff (Some path)
       = Some (OutDiff (DiffUnableToOpen path))).
Proof.
  intros _. split_and!.
  - unfold main. destruct (length argv <? 2)%nat; [by eexists|].
    destruct (argv !! 1%nat) as [p|]; [|by eexists].
    destruct (env_fopen env p) as [f|]; [|by eexists].
    destruct (env_read_fails env p); [by eexists|].
    destruct (command_loop_total env (Graph_build (rec_obj <$> f)) lines false)
      as [outs ->]. by eexists.
  - intros msg. unfold main.
    destruct (Nat.ltb_spec (length argv) 2) as [Hlt|Hge].
    { split.
      - intros [= <-]. by left.
      - intros [[_ ->]|[(p & Hp & _)|(p & Hp & _)]]; [done|..];
          apply lookup_lt_Some in Hp; lia. }
    destruct (argv !! 1%nat) as [p|] eqn:Hp.
    2: { apply lookup_ge_None in Hp. lia. }
    destruct (env_fopen env p) as [f|] eqn:Hf.
    + destruct (env_read_fails env p) eqn:Hr.
      * split.
        -- intros [= <-]. right. right. exists p. split_and!; auto.
        -- intros [[? _]|[(p' & [= <-] & ? & _)|(p' & [= <-] & _ & _ & ->)]];
             [lia|congruence|done].
      * destruct (command_loop env _ false lines); cbn [mbind option_bind].
        all: split; [done|].
        all: intros [[? _]|[(p' & [= <-] & ? & _)|(p' & [= <-] & _ & ? & _)]];
          [lia|congruence|congruence].
    + split.
      * intros [= <-]. right. left. by exists p.
      * intros [[? _]|[(p' & [= <-] & _ & ->)|(p' & [= <-] & [? ?] & _)]];
          [lia|done|congruence].
  - intros p f Hp Hf Hr. unfold main.
    pose proof (lookup_lt_Some _ _ _ Hp) as Hlen.
    destruct (Nat.ltb_spec (length argv) 2) as [Hlt|_]; [lia|].
    rewrite Hp, Hf, Hr.
    destruct (command_loop_total env (Graph_build (rec_obj <$> f)) lines false)
      as [outs Hl]. rewrite Hl. cbn [mbind option_bind].
    exists outs. split; [done|]. intros i line. by apply command_loop_serves.
  - intros g args e He. cbn [call_command].
    unfold cmd_print, cmd_idom, cmd_dominators, cmd_rootpath,
      cmd_rootpath_budget. by rewrite He.
  - intros g args obj Ho Hr. cbn [call_command].
    unfold cmd_idom, cmd_dominators. by rewrite Ho, Hr.
  - intros g args obj Ho Hno. cbn [call_command].
    unfold cmd_rootpath, cmd_rootpath_budget. rewrite Ho.
    apply get_ruby_heap_obj_arg_stored in Ho.
    fold (root_path g (get_addr obj)).
    destruct (root_path_cases g (get_addr obj))
      as [(-> & _)|(r & p & _ & _ & Hlast & Hr & Hne & Hch & _)];
      [by eexists|done|].
    pose proof (ref_chain_hops _ _ _ _ Hch Hlast) as Hh.
    apply Hno in Hh; congruence.
  - intros g path Hp Hf. cbn [call_command]. unfold cmd_diff.
    by rewrite (proj2 (Nat.eqb_neq _ _) Hp), Hf.
Qed.

Lemma main_aborts_only_at_startup_witness :
  (Forall (fun l => blank l = false) sample_session /\
   ["harb"; "second.json"]%string !! 1%nat = Some "second.json"%string /\
   env_fopen sample_env "second.json" = Some second_stream /\
   env_read_fails sample_env "second.json" = false) /\
  exists outs,
    main sample_env ["harb"; "second.json"]%string sample_session
      = Some (MainReturn 0 outs) /\
    forall i line, sample_session !! i = Some line ->
      (forall j o, (j < i)%nat -> outs !! j = Some o -> o ≠ OutQuit) ->
      exists o,
        execute_command sample_env (Graph_build (rec_obj <$> second_stream))
          line = Some o /\
        outs !! i = Some o.
Proof.
  assert (Forall (fun l => blank l = false) sample_session) as Hnb
    by (repeat constructor).
  split; [split_and!; [exact Hnb|by vm_compute..]|].
  destruct (main_aborts_only_at_startup sample_env
              ["harb"; "second.json"]%string sample_session Hnb)
    as (_ & _ & Hserve & _).
  apply (Hserve "second.json"%string second_stream); by vm_compute.
Defined.

(** The session above, run: every failure gives its outcome and the loop
    goes on until [quit]. *)
Example sample_session_run :
  main sample_env ["harb"; "second.json"]%string sample_session
  = Some (MainReturn 0
      [ OutIdom IdomNothing;
        OutRootpath (RootPathNone 7);
        OutDiff (DiffUnableToOpen "nofile");
        OutPrint (inl (ArgNotFound 99));
        OutIdom (IdomFound 5 6);
        OutQuit ]).
Proof. by vm_compute. Qed.

(** A primary snapshot that does not open, and one that opens but cannot
    be read, end the program before the first line is read. *)
Example startup_failures :
  main sample_env ["harb"; "nofile"]%string sample_session
    = Some (MainFatal (FatalUnableToOpen "nofile")) /\
  main sample_env ["harb"; "damaged.json"]%string sample_session
    = Some (MainFatal (FatalUnableToRead "damaged.json")).
Proof. by vm_compute. Qed.

(** C7 as stated fails: with no file named on the command line the program
    aborts although every file of the environment opens and can be read. *)
Lemma main_aborts_without_open_failure :
  (forall path, is_Some (env_fopen open_env path) /\
                env_read_fails open_env path = false) /\
  main open_env ["harb"%string] sample_session
    = Some (MainFatal FatalNoDumpFile).
Proof. split; [by split; [eexists|]|by vm_compute]. Qed.

(* ================================================================== *)
(** * Command lines: cutting a line into command and argument *)

Lemma append_nil_l s : EmptyString +:+ s = s.
Proof. reflexivity. Qed.

Lemma append_cons c s t : String c s +:+ t = String c (s +:+ t).
Proof. reflexivity. Qed.

Lemma skip_spaces_spaces n s : skip_spaces (spaces n +:+ s) = skip_spaces s.
Proof.
  induction n as [|n IH]; [done|].
  cbn [spaces]. rewrite append_cons. cbn. exact IH.
Qed.

Lemma skip_spaces_id s : first_char s ≠ Some " "%char -> skip_spaces s = s.
Proof.
  destruct s as [|c s]; [done|]. cbn. intros H.
  destruct (Ascii.eqb_spec c " "); [congruence|done].
Qed.

Lemma first_char_skip_spaces s : first_char (skip_spaces s) ≠ Some " "%char.
Proof.
  induction s as [|c s IH]; [done|]. cbn.
  destruct (Ascii.eqb_spec c " "); [done|]. cbn. congruence.
Qed.

Lemma trim_right_spaces n : trim_right (spaces n) = EmptyString.
Proof. induction n as [|n IH]; [done|]. cbn. by rewrite IH. Qed.

Lemma trim_right_app s t :
  trim_right (s +:+ t) =
  match trim_right t with
  | EmptyString => trim_right s
  | t' => s +:+ t'
  end.
Proof.
  induction s as [|c s IH]; rewrite ?append_nil_l, ?append_cons.
  - by destruct (trim_right t).
  - cbn [trim_right]. rewrite IH.
    destruct (trim_right t) as [|d t']; [done|]. by destruct s.
Qed.

Lemma trim_right_id s : last_char s ≠ Some " "%char -> trim_right s = s.
Proof.
  induction s as [|c s IH]; [done|]. cbn [last_char trim_right].
  destruct s as [|d s].
  - cbn. intros H. destruct (Ascii.eqb_spec c " "); [congruence|done].
  - intros H. by rewrite (IH H).
Qed.

Lemma last_char_trim_right s : last_char (trim_right s) ≠ Some " "%char.
Proof.
  induction s as [|c s IH]; [done|]. cbn [trim_right].
  destruct (trim_right s) as [|d t] eqn:Ht.
  - destruct (Ascii.eqb_spec c " "); cbn; congruence.
  - exact IH.
Qed.

Lemma last_char_app s c t :
  last_char (s +:+ String c t) = last_char (String c t).
Proof.
  induction s as [|d s IH]; [done|]. rewrite append_cons.
  cbn [last_char]. rewrite IH. by destruct s.
Qed.

(** Skipping leading spaces leaves the end of a string alone. *)
Lemma last_char_skip_spaces s :
  last_char s ≠ Some " "%char -> last_char (skip_spaces s) ≠ Some " "%char.
Proof.
  induction s as [|c s IH]; [done|]. cbn [skip_spaces].
  destruct (Ascii.eqb_spec c " ") as [->|]; [|done].
  intros H. apply IH. destruct s; [done|exact H].
Qed.

Lemma split_command_word w s :
  has_space w = false ->
  split_command (w +:+ String " " s) = (w, skip_spaces s).
Proof.
  induction w as [|c w IH]; rewrite ?append_nil_l, ?append_cons; cbn; [done|].
  destruct (Ascii.eqb_spec c " "); [done|]. cbn. intros H. by rewrite (IH H).
Qed.

Lemma split_command_no_args w :
  has_space w = false -> split_command w = (w, EmptyString).
Proof.
  induction w as [|c w IH]; cbn; [done|].
  destruct (Ascii.eqb_spec c " "); [done|]. cbn. intros H. by rewrite (IH H).
Qed.

Lemma split_command_spec s :
  has_space (split_command s).1 = false /\
  first_char (split_command s).2 ≠ Some " "%char /\
  (last_char s ≠ Some " "%char ->
   last_char (split_command s).2 ≠ Some " "%char).
Proof.
  induction s as [|c s IH]; [done|]. cbn [split_command].
  destruct (Ascii.eqb_spec c " ") as [->|Hc].
  - cbn [fst snd]. split_and!; [done|apply first_char_skip_spaces|].
    intros H. apply last_char_skip_spaces. destruct s; [done|exact H].
  - destruct (split_command s) as [cmd args]. cbn [fst snd] in *.
    destruct IH as (Hw & Hf & Hl). split_and!; [|done|].
    + cbn. destruct (Ascii.eqb_spec c " "); [done|exact Hw].
    + intros H. apply Hl. destruct s; [done|exact H].
Qed.

Lemma trim_right_app_empty s t :
  trim_right t = EmptyString -> trim_right (s +:+ t) = trim_right s.
Proof. intros H. by rewrite trim_right_app, H. Qed.

Lemma trim_right_app_keep s t :
  t ≠ EmptyString -> last_char t ≠ Some " "%char ->
  trim_right (s +:+ t) = s +:+ t.
Proof.
  intros Hne Hl. rewrite trim_right_app, (trim_right_id t Hl).
  by destruct t.
Qed.

Lemma spaces_app n r : spaces n +:+ spaces r = spaces (n + r).
Proof.
  induction n as [|n IH]; [done|].
  cbn [spaces Nat.add]. by rewrite append_cons, IH.
Qed.

Lemma last_char_no_space w :
  has_space w = false -> last_char w ≠ Some " "%char.
Proof.
  induction w as [|c w IH]; [done|]. cbn [has_space last_char].
  destruct (Ascii.eqb_spec c " "); [done|]. cbn [orb]. intros H.
  destruct w; [congruence|by apply IH].
Qed.

Lemma first_char_no_space w :
  has_space w = false -> first_char w ≠ Some " "%char.
Proof.
  destruct w as [|c w]; [done|]. cbn.
  destruct (Ascii.eqb_spec c " "); [done|congruence].
Qed.

Lemma first_char_app w s :
  w ≠ EmptyString -> first_char (w +:+ s) = first_char w.
Proof. by destruct w. Qed.

Lemma append_not_empty_r s t : t ≠ EmptyString -> s +:+ t ≠ EmptyString.
Proof. destruct s; [by rewrite append_nil_l|by rewrite append_cons]. Qed.

Lemma last_char_app_r s t :
  t ≠ EmptyString -> last_char (s +:+ t) = last_char t.
Proof. destruct t as [|c t]; [done|]. intros _. apply last_char_app. Qed.

Lemma blank_trim_right s : blank s = false -> trim_right s ≠ EmptyString.
Proof.
  induction s as [|c s IH]; [done|]. cbn [blank trim_right].
  destruct (Ascii.eqb_spec c " ") as [->|]; cbn [andb].
  - intros H. specialize (IH H). by destruct (trim_right s).
  - intros _. by destruct (trim_right s).
Qed.

Lemma skip_spaces_not_empty s :
  s ≠ EmptyString -> last_char s ≠ Some " "%char ->
  skip_spaces s ≠ EmptyString.
Proof.
  induction s as [|c s IH]; [done|]. intros _ Hl. cbn [skip_spaces].
  destruct (Ascii.eqb_spec c " ") as [->|]; [|done].
  destruct s as [|d s]; [done|]. by apply IH.
Qed.

(** X1. On a line that holds a character other than a space, the command
    word cut out is not empty and holds no space, and the argument neither
    starts nor ends with a space. *)
Theorem parse_line_shape line :
  blank line = false ->
  fst (parse_line line) ≠ EmptyString /\
  has_space (fst (parse_line line)) = false /\
  first_char (snd (parse_line line)) ≠ Some " "%char /\
  last_char (snd (parse_line line)) ≠ Some " "%char.
Proof.
  intros Hb. unfold parse_line.
  pose proof (first_char_skip_spaces (trim_right line)) as Hf.
  pose proof (last_char_skip_spaces _ (last_char_trim_right line)) as Hl.
  pose proof (skip_spaces_not_empty _ (blank_trim_right _ Hb)
                (last_char_trim_right line)) as Hne.
  destruct (split_command_spec (skip_spaces (trim_right line)))
    as (H1 & H2 & H3).
  split_and!; auto.
  destruct (skip_spaces (trim_right line)) as [|c s]; [done|].
  cbn [split_command first_char] in *.
  destruct (Ascii.eqb_spec c " ") as [->|]; [done|].
  by destruct (split_command s).
Qed.

Lemma parse_line_shape_witness :
  blank "  diff  my dump.json  " = false /\
  fst (parse_line "  diff  my dump.json  ") ≠ EmptyString /\
  has_space (fst (parse_line "  diff  my dump.json  ")) = false /\
  first_char (snd (parse_line "  diff  my dump.json  ")) ≠ Some " "%char /\
  last_char (snd (parse_line "  diff  my dump.json  ")) ≠ Some " "%char.
Proof.
  split; [done|]. by apply (parse_line_shape "  diff  my dump.json  ").
Defined.

(** Padding a command line with spaces does not change what is cut out of
    it. *)
Lemma parse_line_padded w a l n r :
  has_space w = false -> w ≠ EmptyString ->
  first_char a ≠ Some " "%char -> last_char a ≠ Some " "%char ->
  (a ≠ EmptyString -> (1 <= n)%nat) ->
  parse_line (spaces l +:+ w +:+ spaces n +:+ a +:+ spaces r) = (w, a).
Proof.
  intros Hw Hne Hfa Hla Hn. unfold parse_line.
  pose proof (last_char_no_space w Hw) as Hlw.
  pose proof (first_char_no_space w Hw) as Hfw.
  destruct (decide (a = EmptyString)) as [->|Ha].
  - rewrite append_nil_l, spaces_app.
    assert (trim_right (spaces l +:+ w +:+ spaces (n + r)) = spaces l +:+ w)
      as ->.
    { rewrite (trim_right_app (spaces l)),
        (trim_right_app_empty w _ (trim_right_spaces _)),
        (trim_right_id w Hlw).
      by destruct w. }
    rewrite skip_spaces_spaces, (skip_spaces_id w Hfw).
    by apply split_command_no_args.
  - destruct n as [|n]; [specialize (Hn Ha); lia|].
    assert (trim_right (spaces l +:+ w +:+ spaces (S n) +:+ a +:+ spaces r)
            = spaces l +:+ w +:+ spaces (S n) +:+ a) as ->.
    { assert (trim_right (a +:+ spaces r) = a) as Hta.
      { by rewrite (trim_right_app_empty a _ (trim_right_spaces _)),
          (trim_right_id a Hla). }
      rewrite (trim_right_app (spaces l)), (trim_right_app w),
        (trim_right_app (spaces (S n))), Hta.
      destruct a as [|c a]; [done|].
      cbn [spaces]. rewrite !append_cons.
      destruct w as [|d w]; [done|]. by rewrite !append_cons. }
    rewrite skip_spaces_spaces, skip_spaces_id
      by (by rewrite first_char_app).
    cbn [spaces]. rewrite append_cons, (split_command_word w _ Hw).
    by rewrite skip_spaces_spaces, (skip_spaces_id a Hfa).
Qed.

(** X2. A command line may be padded: spaces in front of the command word,
    behind the argument, and any number of spaces (at least one when there
    is an argument) between the two give the same execution as the word,
    one space and the argument. *)
Theorem execute_command_padded env g w a l n r :
  has_space w = false -> w ≠ EmptyString ->
  first_char a ≠ Some " "%char -> last_char a ≠ Some " "%char ->
  (a ≠ EmptyString -> (1 <= n)%nat) ->
  parse_line (spaces l +:+ w +:+ spaces n +:+ a +:+ spaces r) = (w, a) /\
  execute_command env g (spaces l +:+ w +:+ spaces n +:+ a +:+ spaces r)
  = execute_command env g (w +:+ String " " a).
Proof.
  intros Hw Hne Hfa Hla Hn.
  pose proof (parse_line_padded w a l n r Hw Hne Hfa Hla Hn) as Hp.
  split; [exact Hp|].
  pose proof (parse_line_padded w a 0 1 0 Hw Hne Hfa Hla (fun _ => le_n 1))
    as Hc.
  cbn [spaces] in Hc. rewrite append_nil_l, append_cons, append_nil_l in Hc.
  assert (a +:+ EmptyString = a) as Ha0.
  { clear. induction a as [|c a IH]; [done|]. by rewrite append_cons, IH. }
  rewrite Ha0 in Hc.
  unfold execute_command. fold (parse_line (w +:+ String " " a)).
  fold (parse_line (spaces l +:+ w +:+ spaces n +:+ a +:+ spaces r)).
  by rewrite Hp, Hc.
Qed.

Lemma execute_command_padded_witness :
  (has_space "idom" = false /\ "idom"%string ≠ EmptyString /\
   first_char "3" ≠ Some " "%char /\ last_char "3" ≠ Some " "%char /\
   ("3"%string ≠ EmptyString -> (1 <= 4)%nat)) /\
  parse_line (spaces 2 +:+ "idom" +:+ spaces 4 +:+ "3" +:+ spaces 1)
    = ("idom"%string, "3"%string) /\
  execute_command sample_env example_graph
    (spaces 2 +:+ "idom" +:+ spaces 4 +:+ "3" +:+ spaces 1)
  = execute_command sample_env example_graph ("idom" +:+ String " " "3").
Proof.
  split; [split_and!; try done; intros _; lia|].
  apply (execute_command_padded sample_env example_graph "idom" "3" 2 4 1);
    try done.
  intros _; lia.
Defined.

(* ================================================================== *)
(** * Dispatch and the command loop *)

Lemma find_command_None w (l : list command_t) :
  find (fun c => String.eqb (name c) w) l = None <-> w ∉ name <$> l.
Proof.
  induction l as [|c l IH]; cbn [find fmap list_fmap].
  - split; [intros _; apply not_elem_of_nil|done].
  - destruct (String.eqb_spec (name c) w) as [<-|Hne].
    + split; [done|]. intros H. exfalso. apply H. by left.
    + rewrite IH. split.
      * intros H [?|?]%elem_of_cons; [congruence|done].
      * intros H Hin. apply H. by right.
Qed.

Lemma find_command_Some w (l : list command_t) c :
  find (fun c => String.eqb (name c) w) l = Some c -> name c = w /\ In c l.
Proof.
  intros H. apply find_some in H as [Hin He].
  by apply String.eqb_eq in He.
Qed.

Lemma call_command_known env g f args w :
  call_command env g f args ≠ Some (OutUnknownCommand w).
Proof.
  destruct f; cbn [call_command]; try done.
  by destruct (cmd_rootpath _ g args).
Qed.

Lemma call_command_quit env g f args :
  call_command env g f args = Some OutQuit <-> f = F_quit.
Proof.
  destruct f; cbn [call_command]; split; try done.
  by destruct (cmd_rootpath _ g args).
Qed.

(** X3. A line that holds a character other than a space is answered with
    "unknown command:" and its command word exactly when that word is none
    of the names that [help] lists. *)
Theorem unknown_command_iff_not_listed env g line :
  blank line = false ->
  (execute_command env g line
     = Some (OutUnknownCommand (fst (parse_line line))) <->
   fst (parse_line line) ∉ fst <$> cmd_help).
Proof.
  intros _.
  assert ((fst <$> cmd_help) = (name <$> commands_)) as -> by done.
  unfold execute_command. fold (parse_line line).
  destruct (parse_line line) as [cmd args]. cbn [fst].
  destruct (find _ commands_) as [c|] eqn:Hf.
  - split.
    + intros H. by apply call_command_known in H.
    + intros Hn. apply find_command_None in Hn. congruence.
  - split; [|done]. intros _. by apply find_command_None.
Qed.

Lemma unknown_command_iff_not_listed_witness :
  blank " frobnicate 0x3 " = false /\
  (execute_command sample_env example_graph " frobnicate 0x3 "
     = Some (OutUnknownCommand (fst (parse_line " frobnicate 0x3 "))) <->
   fst (parse_line " frobnicate 0x3 ") ∉ fst <$> cmd_help).
Proof.
  split; [done|].
  by apply (unknown_command_iff_not_listed sample_env example_graph
              " frobnicate 0x3 ").
Defined.

(** The same on a listed word and on a word in capitals. *)
Example unknown_command_samples :
  execute_command sample_env example_graph " frobnicate 0x3 "
    = Some (OutUnknownCommand "frobnicate") /\
  execute_command sample_env example_graph "HELP"
    = Some (OutUnknownCommand "HELP") /\
  execute_command sample_env example_graph "help" = Some (OutHelp cmd_help).
Proof. by vm_compute. Qed.

Lemma execute_command_quit_iff env g line :
  execute_command env g line = Some OutQuit <->
  fst (parse_line line) = "quit"%string.
Proof.
  unfold execute_command. fold (parse_line line).
  destruct (parse_line line) as [cmd args]. cbn [fst]. split.
  - destruct (find _ commands_) as [c|] eqn:Hf; [|done].
    apply find_command_Some in Hf as [<- Hin].
    intros Hq%call_command_quit. cbn in Hin.
    by destruct Hin as [<-|[<-|[<-|[<-|[<-|[<-|[<-|[<-|[]]]]]]]]].
  - by intros ->.
Qed.

Lemma command_loop_exit env g lines : command_loop env g true lines = Some [].
Proof. by destruct lines. Qed.

Lemma command_loop_after_quit env g q rest : forall pre,
  fst (parse_line q) = "quit"%string ->
  command_loop env g false (pre ++ q :: rest)
  = command_loop env g false (pre ++ [q]).
Proof.
  intros pre Hq. apply execute_command_quit_iff with (env := env) (g := g) in Hq.
  induction pre as [|l pre IH]; cbn [app command_loop].
  - rewrite Hq. cbn [mbind option_bind orb sets_exit].
    by rewrite !command_loop_exit.
  - destruct (execute_command env g l) as [o|]; [|done].
    cbn [mbind option_bind orb]. destruct (sets_exit o).
    + by rewrite !command_loop_exit.
    + by rewrite IH.
Qed.

Lemma blank_parse_line line :
  blank line = true -> parse_line line = (EmptyString, EmptyString).
Proof.
  intros Hb. unfold parse_line.
  assert (trim_right line = EmptyString) as ->; [|done].
  induction line as [|c s IH]; [done|].
  cbn [blank] in Hb. apply andb_prop in Hb as [Hc Hs].
  cbn [trim_right]. by rewrite (IH Hs), Hc.
Qed.

(** X4. Only [quit] ends the session.  Among the lines that hold a
    character other than a space, a line sets [exit_] exactly when its
    command word is [quit], whatever follows the word; such a line is never
    without such a character; and once it has been executed no later line
    is, so the lines behind it do not change what [main] does. *)
Theorem lines_after_quit_ignored env g argv q pre rest :
  fst (parse_line q) = "quit"%string ->
  Forall (fun l => blank l = false) pre ->
  blank q = false /\
  execute_command env g q = Some OutQuit /\
  (forall line, blank line = false ->
     execute_command env g line = Some OutQuit ->
     fst (parse_line line) = "quit"%string) /\
  command_loop env g false (pre ++ q :: rest)
    = command_loop env g false (pre ++ [q]) /\
  main env argv (pre ++ q :: rest) = main env argv (pre ++ [q]).
Proof.
  intros Hq _. split_and!.
  - destruct (blank q) eqn:Hb; [|done].
    by rewrite (blank_parse_line _ Hb) in Hq.
  - by apply execute_command_quit_iff.
  - intros line _. apply execute_command_quit_iff.
  - by apply command_loop_after_quit.
  - unfold main. destruct (length argv <? 2)%nat; [done|].
    destruct (argv !! 1%nat) as [p|]; [|done].
    destruct (env_fopen env p) as [f|]; [|done].
    destruct (env_read_fails env p); [done|].
    by rewrite command_loop_after_quit.
Qed.

Lemma lines_after_quit_ignored_witness :
  (fst (parse_line " quit now ") = "quit"%string /\
   Forall (fun l => blank l = false) ["summary"; "idom 3"]%string) /\
  blank " quit now " = false /\
  execute_command sample_env example_graph " quit now " = Some OutQuit /\
  (forall line, blank line = false ->
     execute_command sample_env example_graph line = Some OutQuit ->
     fst (parse_line line) = "quit"%string) /\
  command_loop sample_env example_graph false
    (["summary"; "idom 3"]%string ++
       " quit now "%string :: ["rootpath 3"; "help"]%string)
    = command_loop sample_env example_graph false
        (["summary"; "idom 3"]%string ++ [" quit now "%string]) /\
  main sample_env ["harb"; "second.json"]%string
    (["summary"; "idom 3"]%string ++
       " quit now "%string :: ["rootpath 3"; "help"]%string)
    = main sample_env ["harb"; "second.json"]%string
        (["summary"; "idom 3"]%string ++ [" quit now "%string]).
Proof.
  split; [split; [done|by repeat constructor]|].
  apply (lines_after_quit_ignored sample_env example_graph
           ["harb"; "second.json"]%string " quit now "
           ["summary"; "idom 3"]%string ["rootpath 3"; "help"]%string);
    [done|by repeat constructor].
Defined.

(** X5. A word entered without anything behind it reaches its command with
    the empty string as argument, not with [NULL]: [print], [idom],
    [dominators] and [rootpath] then answer "you must specify an address"
    and [diff] answers "you must specify a heap dump file", on every
    graph. *)
Theorem bare_command_misses_argument env g l r :
  execute_command env g (spaces l +:+ "print" +:+ spaces r)
    = Some (OutPrint (inl ArgMissing)) /\
  execute_command env g (spaces l +:+ "idom" +:+ spaces r)
    = Some (OutIdom (IdomArgError ArgMissing)) /\
  execute_command env g (spaces l +:+ "dominators" +:+ spaces r)
    = Some (OutDominators (DomArgError ArgMissing)) /\
  execute_command env g (spaces l +:+ "rootpath" +:+ spaces r)
    = Some (OutRootpath (RootPathArgError ArgMissing)) /\
  execute_command env g (spaces l +:+ "diff" +:+ spaces r)
    = Some (OutDiff DiffNoFile).
Proof.
  assert (forall w, has_space w = false -> w ≠ EmptyString ->
            parse_line (spaces l +:+ w +:+ spaces r) = (w, EmptyString))
    as Hp.
  { intros w Hw Hne.
    pose proof (parse_line_padded w EmptyString l r 0 Hw Hne) as H.
    rewrite append_nil_l in H. cbn [spaces] in H.
    assert (spaces r +:+ EmptyString = spaces r) as Hr.
    { clear. induction r as [|r IH]; [done|].
      cbn [spaces]. by rewrite append_cons, IH. }
    rewrite Hr in H. by apply H. }
  unfold execute_command.
  repeat match goal with
  | |- context [split_command (skip_spaces (trim_right ?s))] =>
      fold (parse_line s)
  end.
  rewrite !Hp by done. by split_and!.
Qed.

(* ================================================================== *)
(** * The address argument *)

Lemma get_ruby_heap_obj_arg_inr strtoull g args obj :
  get_ruby_heap_obj_arg strtoull g args = inr obj <->
  exists a, args = Some a /\ a ≠ EmptyString /\ strtoull a ≠ 0 /\
            get_heap_object g (strtoull a) = Some obj.
Proof.
  unfold get_ruby_heap_obj_arg. split.
  - destruct args as [a|]; [|done].
    destruct (Nat.eqb_spec (String.length a) 0) as [|Hlen]; [done|].
    destruct (N.eqb_spec (strtoull a) 0) as [|Hz]; [done|].
    destruct (get_heap_object g (strtoull a)) as [o|] eqn:Ho; [|done].
    intros [= <-]. exists a. split_and!; auto. by intros ->.
  - intros (a & -> & Hne & Hz & Ho).
    destruct (Nat.eqb_spec (String.length a) 0) as [Hlen|_].
    { by destruct a. }
    destruct (N.eqb_spec (strtoull a) 0); [done|]. by rewrite Ho.
Qed.

Lemma get_ruby_heap_obj_arg_asked strtoull g args obj :
  get_ruby_heap_obj_arg strtoull g args = inr obj ->
  asked_for strtoull g args (get_addr obj).
Proof.
  intros (a & -> & Hne & Hz & Ho)%get_ruby_heap_obj_arg_inr.
  pose proof (get_heap_object_addr _ _ _ Ho) as Ha.
  unfold asked_for. rewrite Ha. split_and!; [done|by eexists|by exists a].
Qed.

(** X6. The four commands that take an address, [print], [rootpath], [idom]
    and [dominators], never answer a question about address zero: in every
    outcome other than the three messages of the argument check and the
    silent return on a root, the address the answer is about is the value
    of a non-empty argument, is not zero, and has an object stored under
    it.  (The object stored under address zero can still be printed as a
    node of a root path, as a dominator, or as a dominated object.) *)
Theorem address_commands_never_query_zero strtoull g args :
  (forall a, cmd_print strtoull g args = inr a ->
     asked_for strtoull g args a) /\
  (forall a, cmd_rootpath strtoull g args = Some (RootPathNone a) ->
     asked_for strtoull g args a) /\
  (forall a p, cmd_rootpath strtoull g args = Some (RootPathFound a p) ->
     asked_for strtoull g args a) /\
  (forall a d, cmd_idom strtoull g args = IdomFound a d ->
     asked_for strtoull g args a) /\
  (forall a, cmd_idom strtoull g args = IdomUnknown a ->
     asked_for strtoull g args a) /\
  (forall a l, cmd_dominators strtoull g args = DomList a l ->
     asked_for strtoull g args a) /\
  (forall a, cmd_dominators strtoull g args = DomNone a ->
     asked_for strtoull g args a).
Proof.
  unfold cmd_print, cmd_rootpath, cmd_rootpath_budget, cmd_idom,
    cmd_dominators.
  destruct (get_ruby_heap_obj_arg strtoull g args) as [e|obj] eqn:Ha;
    [by split_and!|].
  apply get_ruby_heap_obj_arg_asked in Ha.
  unfold root_path_budget.
  split_and!.
  - by intros a [= <-].
  - intros a. destruct (bfs_loop _ _ _) as [s|]; [|done].
    cbn [mbind option_bind].
    destruct (bfs_found s); cbn [negb]; [|by intros [= <-]].
    by destruct (walk_parents _ _ _).
  - intros a p. destruct (bfs_loop _ _ _) as [s|]; [|done].
    cbn [mbind option_bind].
    destruct (bfs_found s); cbn [negb]; [|done].
    destruct (walk_parents _ _ _); [|done]. by intros [= <- _].
  - intros a d. destruct (is_root_object obj); [done|].
    destruct (get_idom g obj); [|done]. by intros [= <- _].
  - intros a. destruct (is_root_object obj); [done|].
    destruct (get_idom g obj); [done|]. by intros [= <-].
  - intros a l. destruct (is_root_object obj); [done|].
    destruct (get_dominators g obj); [done|]. by intros [= <- _].
  - intros a. destruct (is_root_object obj); [done|].
    destruct (get_dominators g obj); [|done]. by intros [= <-].
Qed.

Lemma address_commands_never_query_zero_witness :
  cmd_rootpath strtoull_dec zero_graph (Some "1"%string)
    = Some (RootPathFound 1 [0; 1]) /\
  asked_for strtoull_dec zero_graph (Some "1"%string) 1.
Proof.
  split; [by vm_compute|].
  destruct (address_commands_never_query_zero strtoull_dec zero_graph
              (Some "1"%string)) as (_ & _ & H & _).
  apply (H 1 [0; 1]). by vm_compute.
Defined.

(** The object stored under address zero is printed as the root of a path
    and as an immediate dominator, although it cannot be asked for. *)
Example zero_address_printed :
  cmd_rootpath strtoull_dec zero_graph (Some "1"%string)
    = Some (RootPathFound 1 [0; 1]) /\
  cmd_idom strtoull_dec zero_graph (Some "1"%string) = IdomFound 1 0 /\
  cmd_print strtoull_dec zero_graph (Some "0"%string) = inl ArgInvalid.
Proof. by vm_compute. Qed.

(** The object stored under address zero cannot be asked for. *)
Example zero_address_rejected :
  is_Some (get_heap_object zero_graph 0) /\
  get_ruby_heap_obj_arg strtoull_dec zero_graph (Some "0"%string)
    = inl ArgInvalid.
Proof. split; [by eexists|by vm_compute]. Qed.

(* ================================================================== *)
(** * diff: further properties of the text written *)

Lemma get_heap_object_is_Some g a :
  is_Some (get_heap_object g a) <-> a ∈ get_addr <$> g.
Proof.
  split.
  - intros [o Ho]. apply list_elem_of_fmap. exists o. split.
    + symmetry. by eapply get_heap_object_addr.
    + apply list_elem_of_In. by eapply get_heap_object_In.
  - intros Hin. destruct (get_heap_object g a) eqn:Ho; [by eexists|].
    by apply get_heap_object_None in Ho.
Qed.

(** Filtering with a stronger test leaves a subsequence. *)
Lemma filter_sublist_weaken {A} (P Q : A -> bool) l :
  (forall x, P x = true -> Q x = true) ->
  List.filter P l `sublist_of` List.filter Q l.
Proof.
  intros HPQ. induction l as [|x l IH]; cbn [List.filter]; [constructor|].
  destruct (P x) eqn:HP.
  - rewrite (HPQ x HP). by constructor.
  - destruct (Q x); [by constructor|done].
Qed.

Lemma fmap_sublist {A B} (f : A -> B) l1 l2 :
  l1 `sublist_of` l2 -> f <$> l1 `sublist_of` f <$> l2.
Proof. induction 1; cbn; by constructor. Qed.

Lemma diff_emitted_sublist g stream : diff_emitted g stream `sublist_of` stream.
Proof.
  unfold diff_emitted.
  induction stream as [|r stream IH]; cbn [List.filter]; [constructor|].
  destruct (diff_is_new g (rec_obj r)); by constructor.
Qed.

Lemma cmd_diff_written env g args lines :
  cmd_diff env g args = DiffWritten lines ->
  exists path stream,
    args = Some path /\ path ≠ EmptyString /\
    env_fopen env path = Some stream /\
    lines = rec_json <$> diff_emitted g stream.
Proof.
  unfold cmd_diff. destruct args as [path|]; [|done].
  destruct (Nat.eqb_spec (String.length path) 0) as [|Hlen]; [done|].
  destruct (env_fopen env path) as [stream|] eqn:Ho; [|done].
  destruct (env_mkstemp env); [|done]. destruct (env_fdopen env); [|done].
  cbn [negb]. rewrite diff_fold_spec. intros [= <-].
  exists path, stream. split_and!; auto. by intros ->.
Qed.

(** X7. Whatever [diff] writes is a subsequence of the serialized records
    of the file it was given, in the order of the file: nothing is
    reordered, altered or added, and there are at most as many lines as
    records. *)
Theorem diff_lines_in_stream_order env g args lines :
  cmd_diff env g args = DiffWritten lines ->
  exists path stream,
    args = Some path /\ env_fopen env path = Some stream /\
    lines `sublist_of` (rec_json <$> stream) /\
    (length lines <= length stream)%nat.
Proof.
  intros (path & stream & -> & _ & Ho & ->)%cmd_diff_written.
  exists path, stream. split_and!; auto.
  - apply fmap_sublist, diff_emitted_sublist.
  - rewrite length_fmap. apply sublist_length, diff_emitted_sublist.
Qed.

Lemma diff_lines_in_stream_order_witness :
  cmd_diff sample_env example_graph (Some "second.json"%string)
    = DiffWritten ["{address:0x5,type:STRING}"%string;
                   "{address:0x7,type:ARRAY}"%string] /\
  exists path stream,
    Some "second.json"%string = Some path /\
    env_fopen sample_env path = Some stream /\
    ["{address:0x5,type:STRING}"%string; "{address:0x7,type:ARRAY}"%string]
      `sublist_of` (rec_json <$> stream) /\
    (length ["{address:0x5,type:STRING}"%string;
             "{address:0x7,type:ARRAY}"%string] <= length stream)%nat.
Proof.
  split; [by vm_compute|].
  apply (diff_lines_in_stream_order sample_env example_graph).
  by vm_compute.
Defined.

Lemma diff_emitted_nil_iff g stream :
  diff_emitted g stream = [] <->
  forall r, r ∈ stream ->
    is_root_object (rec_obj r) = true \/
    is_Some (get_heap_object g (get_addr (rec_obj r))).
Proof.
  unfold diff_emitted. induction stream as [|r stream IH]; cbn [List.filter].
  - split; [|done]. by intros _ r ?%elem_of_nil.
  - destruct (diff_is_new g (rec_obj r)) eqn:Hn.
    + split; [done|]. intros H. apply diff_is_new_spec in Hn as [Hr Hs].
      destruct (H r) as [?|[? ?]]; [by left|congruence..].
    + rewrite IH. split.
      * intros H r' [Heq|Hin]%elem_of_cons; [subst r'|by apply H].
        unfold diff_is_new in Hn.
        destruct (is_root_object (rec_obj r)); [by left|right].
        destruct (get_heap_object g _); [by eexists|done].
      * intros H r' Hin. apply H. by right.
Qed.

(** X8. When the file opens and the temporary file can be made, [diff]
    writes nothing exactly when every record of the file is root-flagged
    or carries an address that the primary graph stores. *)
Theorem diff_writes_nothing_iff env g path stream :
  String.length path ≠ O ->
  env_fopen env path = Some stream ->
  env_mkstemp env = true -> env_fdopen env = true ->
  (cmd_diff env g (Some path) = DiffWritten [] <->
   forall r, r ∈ stream ->
     is_root_object (rec_obj r) = true \/
     is_Some (get_heap_object g (get_addr (rec_obj r)))).
Proof.
  intros Hp Ho Ht Hf. rewrite <- diff_emitted_nil_iff.
  unfold cmd_diff. rewrite (proj2 (Nat.eqb_neq _ _) Hp), Ho, Ht, Hf.
  cbn [negb]. rewrite diff_fold_spec. cbn [app]. split.
  - intros [= H]. by apply fmap_nil_inv in H.
  - by intros ->.
Qed.

Lemma diff_writes_nothing_iff_witness :
  (String.length "second.json" ≠ O /\
   env_fopen sample_env "second.json" = Some second_stream /\
   env_mkstemp sample_env = true /\ env_fdopen sample_env = true) /\
  (cmd_diff sample_env garbage_graph (Some "second.json"%string)
     = DiffWritten [] <->
   forall r, r ∈ second_stream ->
     is_root_object (rec_obj r) = true \/
     is_Some (get_heap_object garbage_graph (get_addr (rec_obj r)))).
Proof.
  split; [by vm_compute|].
  apply (diff_writes_nothing_iff sample_env garbage_graph); by vm_compute.
Defined.

Lemma Graph_build_stores records : forall g0 a,
  a ∈ get_addr <$> g0 \/ a ∈ get_addr <$> records ->
  a ∈ get_addr <$> fold_left graph_insert records g0.
Proof.
  induction records as [|o records IH]; intros g0 a; cbn [fold_left].
  - intros [H|H]; [done|]. by apply elem_of_nil in H.
  - intros H. apply IH. unfold graph_insert.
    destruct (get_heap_object g0 (get_addr o)) as [o'|] eqn:Ho.
    + destruct H as [H|H]; [by left|].
      rewrite fmap_cons in H. apply elem_of_cons in H as [->|H]; [|by right].
      left. apply get_heap_object_is_Some. by eexists.
    + rewrite fmap_app, elem_of_app. destruct H as [H|H]; [by left; left|].
      rewrite fmap_cons in H. apply elem_of_cons in H as [->|H]; [|by right].
      left. right. cbn. by left.
Qed.

(** X9. Comparing the primary dump with itself writes nothing: for the
    graph that [main] builds from a file, [diff] with the records of that
    same file gives an empty text. *)
Theorem diff_against_itself_is_empty env path heap_file :
  String.length path ≠ O ->
  env_fopen env path = Some heap_file ->
  env_mkstemp env = true -> env_fdopen env = true ->
  cmd_diff env (Graph_build (rec_obj <$> heap_file)) (Some path)
    = DiffWritten [].
Proof.
  intros Hp Ho Ht Hf.
  unfold cmd_diff. rewrite (proj2 (Nat.eqb_neq _ _) Hp), Ho, Ht, Hf.
  cbn [negb]. rewrite diff_fold_spec. cbn [app].
  rewrite (proj2 (diff_emitted_nil_iff _ _)); [done|].
  intros r Hr. right. apply get_heap_object_is_Some.
  unfold Graph_build. apply Graph_build_stores. right.
  rewrite <- list_fmap_compose. apply list_elem_of_fmap. by exists r.
Qed.

Lemma diff_against_itself_is_empty_witness :
  (String.length "second.json" ≠ O /\
   env_fopen sample_env "second.json" = Some second_stream /\
   env_mkstemp sample_env = true /\ env_fdopen sample_env = true) /\
  cmd_diff sample_env (Graph_build (rec_obj <$> second_stream))
    (Some "second.json"%string) = DiffWritten [].
Proof.
  split; [by vm_compute|].
  apply (diff_against_itself_is_empty sample_env); by vm_compute.
Defined.

(** X10. A primary graph that stores more addresses gets a shorter diff:
    when every address stored in [g] is stored in [g'], the text written
    against [g'] is a subsequence of the text written against [g]. *)
Theorem diff_shrinks_as_graph_grows env g g' args lines lines' :
  (forall a, is_Some (get_heap_object g a) ->
             is_Some (get_heap_object g' a)) ->
  cmd_diff env g args = DiffWritten lines ->
  cmd_diff env g' args = DiffWritten lines' ->
  lines' `sublist_of` lines.
Proof.
  intros Hsub (path & stream & -> & _ & Ho & ->)%cmd_diff_written
    (path' & stream' & [= <-] & _ & Ho' & ->)%cmd_diff_written.
  rewrite Ho in Ho'. injection Ho' as <-.
  apply fmap_sublist. unfold diff_emitted. apply filter_sublist_weaken.
  intros r [Hr Hn]%diff_is_new_spec. apply diff_is_new_spec. split; [done|].
  destruct (get_heap_object g (get_addr (rec_obj r))) as [o|] eqn:Hg; [|done].
  destruct (Hsub (get_addr (rec_obj r))) as [o' Ho']; [by eexists|congruence].
Qed.

Lemma diff_shrinks_as_graph_grows_witness :
  ((forall a, is_Some (get_heap_object [] a) ->
              is_Some (get_heap_object example_graph a)) /\
   cmd_diff sample_env [] (Some "second.json"%string)
     = DiffWritten ["{address:0x2,type:OBJECT}"%string;
                    "{address:0x5,type:STRING}"%string;
                    "{address:0x7,type:ARRAY}"%string] /\
   cmd_diff sample_env example_graph (Some "second.json"%string)
     = DiffWritten ["{address:0x5,type:STRING}"%string;
                    "{address:0x7,type:ARRAY}"%string]) /\
  ["{address:0x5,type:STRING}"%string; "{address:0x7,type:ARRAY}"%string]
    `sublist_of`
  ["{address:0x2,type:OBJECT}"%string; "{address:0x5,type:STRING}"%string;
   "{address:0x7,type:ARRAY}"%string].
Proof.
  assert (forall a, is_Some (get_heap_object [] a) ->
                    is_Some (get_heap_object example_graph a)) as Hsub.
  { by intros a [o Ho]. }
  split; [split_and!; [exact Hsub|by vm_compute..]|].
  apply (diff_shrinks_as_graph_grows sample_env [] example_graph
           (Some "second.json"%string)); [exact Hsub|by vm_compute..].
Defined.

(* ================================================================== *)
(** * summary: the order of the pass does not matter *)

Lemma sum_memsize_Permutation g g' : g ≡ₚ g' -> sum_memsize g = sum_memsize g'.
Proof.
  unfold sum_memsize. induction 1; cbn [fold_right]; [done|lia|lia|congruence].
Qed.

Lemma objects_of_type_Permutation t g g' :
  g ≡ₚ g' -> objects_of_type t g ≡ₚ objects_of_type t g'.
Proof.
  unfold objects_of_type. induction 1 as [|o g g' H IH|o1 o2 g|g1 g2 g3 H1 IH1 H2 IH2];
    cbn [List.filter].
  - done.
  - destruct (get_type o =? t); [by constructor|done].
  - destruct (get_type o1 =? t), (get_type o2 =? t); try done. constructor.
  - by etrans.
Qed.

Lemma cmd_summary_unfold g :
  cmd_summary g =
  mkSummary (length g) (fold_left summary_visit g (0, ∅)).1
            (fold_left summary_visit g (0, ∅)).2.
Proof.
  unfold cmd_summary, each_heap_object, get_num_heap_objects.
  by destruct (fold_left summary_visit g (0, ∅)).
Qed.

(** X11. The summary does not depend on the order in which the store hands
    out its objects: two stores that hold the same objects in a different
    order get the same count, the same grand total and the same per-type
    totals, overflow or not. *)
Theorem summary_order_independent g g' :
  g ≡ₚ g' -> cmd_summary g = cmd_summary g'.
Proof.
  intros Hp. rewrite !cmd_summary_unfold.
  destruct (summary_fold_spec g) as (Ht & Hm & _).
  destruct (summary_fold_spec g') as (Ht' & Hm' & _).
  f_equal.
  - by apply Permutation_length.
  - by rewrite Ht, Ht', (sum_memsize_Permutation _ _ Hp).
  - apply map_eq. intros t. rewrite Hm, Hm'.
    pose proof (objects_of_type_Permutation t _ _ Hp) as Hpt.
    rewrite (sum_memsize_Permutation _ _ Hpt).
    destruct (decide (objects_of_type t g = [])) as [He|Hne];
      destruct (decide (objects_of_type t g' = [])) as [He'|Hne']; try done.
    + rewrite He in Hpt. by apply Permutation_nil_l in Hpt.
    + rewrite He' in Hpt. by apply Permutation_nil_r in Hpt.
Qed.

Lemma summary_order_independent_witness :
  huge_graph ≡ₚ reverse huge_graph /\
  cmd_summary huge_graph = cmd_summary (reverse huge_graph).
Proof.
  assert (huge_graph ≡ₚ reverse huge_graph) as Hp
    by (symmetry; apply reverse_Permutation).
  split; [exact Hp|]. by apply (summary_order_independent huge_graph).
Defined.

(* ================================================================== *)
(** * rootpath: further properties of the search *)

Lemma hops_trans g a k b m c :
  hops g a k b -> hops g b m c -> hops g a (k + m) c.
Proof.
  intros Hab Hbc. induction Hbc as [|m y z H IH Hz].
  - by rewrite Nat.add_0_r.
  - rewrite Nat.add_succ_r. by econstructor.
Qed.

Lemma hops_stored g v k x :
  is_Some (get_heap_object g v) -> hops g v k x ->
  is_Some (get_heap_object g x).
Proof. intros Hv H. destruct H; [done|by eapply refs_of_stored]. Qed.

(** In a sequence in root-to-start order, the node at position [i] is
    [i] hops before the first node. *)
Lemma ref_chain_prefix_hops g : forall p r i x,
  ref_chain g (r :: p) -> (r :: p) !! i = Some x -> hops g x i r.
Proof.
  induction p as [|b p IH]; intros r i x Hch Hi.
  - destruct i as [|i]; [|done]. injection Hi as <-. constructor.
  - destruct i as [|i].
    + injection Hi as <-. constructor.
    + destruct Hch as [He Hch]. econstructor; [|exact He].
      by apply IH.
Qed.

(** ... and [length - 1 - i] hops after the last one. *)
Lemma ref_chain_suffix_hops g v : forall p r i x,
  ref_chain g (r :: p) -> last (r :: p) = Some v ->
  (r :: p) !! i = Some x -> hops g v (length p - i) x.
Proof.
  induction p as [|b p IH]; intros r i x Hch Hlast Hi.
  - destruct i as [|i]; [|done]. injection Hi as <-.
    cbn in Hlast. injection Hlast as ->. constructor.
  - destruct i as [|i].
    + injection Hi as <-. rewrite Nat.sub_0_r. by apply ref_chain_hops.
    + destruct Hch as [He Hch]. rewrite last_cons_cons in Hlast.
      cbn [length Nat.sub]. by apply (IH b i x).
Qed.

Lemma cmd_rootpath_found_start strtoull g args v p :
  cmd_rootpath strtoull g args = Some (RootPathFound v p) ->
  exists obj, get_ruby_heap_obj_arg strtoull g args = inr obj /\
              get_addr obj = v.
Proof.
  unfold cmd_rootpath, cmd_rootpath_budget.
  destruct (get_ruby_heap_obj_arg strtoull g args) as [e|obj] eqn:Ha; [done|].
  pose proof (get_ruby_heap_obj_arg_stored _ _ _ _ Ha) as Hst.
  fold (root_path g (get_addr obj)). intros H.
  destruct (root_path_cases g (get_addr obj))
    as [[H' _]|(r & rest & H' & _)]; [by eexists| |]; rewrite H' in H; [done|].
  injection H as <- _. by exists obj.
Qed.

(** X12. The search is complete: for a resolved node [v], [rootpath] prints
    a path exactly when some root-flagged node other than [v] can be
    reached from [v] along the references the search follows. *)
Theorem rootpath_succeeds_iff_root_reachable strtoull g args obj :
  get_ruby_heap_obj_arg strtoull g args = inr obj ->
  ((exists p, cmd_rootpath strtoull g args
                = Some (RootPathFound (get_addr obj) p)) <->
   exists k r, hops g (get_addr obj) k r /\ root_at g r = true /\
               r ≠ get_addr obj).
Proof.
  intros Ha. unfold cmd_rootpath, cmd_rootpath_budget. rewrite Ha.
  apply get_ruby_heap_obj_arg_stored in Ha.
  fold (root_path g (get_addr obj)).
  destruct (root_path_cases g (get_addr obj))
    as [(H & _ & Hno)|(r & p & H & _ & Hlast & Hr & Hne & Hch & _)];
    [by eexists| |]; rewrite H.
  - split; [by intros [p ?]|].
    intros (k & r & Hh & Hr & Hne). rewrite (Hno k r Hh Hne) in Hr. done.
  - split; [|by eexists]. intros _. exists (length p), r.
    split_and!; auto. by apply ref_chain_hops.
Qed.

Lemma rootpath_succeeds_iff_root_reachable_witness :
  get_ruby_heap_obj_arg strtoull_dec cycle_graph (Some "3"%string)
    = inr (mkObj 3 T_OBJECT 40 false [4]) /\
  ((exists p, cmd_rootpath strtoull_dec cycle_graph (Some "3"%string)
                = Some (RootPathFound 3 p)) <->
   exists k r, hops cycle_graph 3 k r /\ root_at cycle_graph r = true /\
               r ≠ 3).
Proof.
  split; [by vm_compute|].
  apply (rootpath_succeeds_iff_root_reachable strtoull_dec cycle_graph
           (Some "3"%string) (mkObj 3 T_OBJECT 40 false [4])).
  by vm_compute.
Defined.

(** X13. The path that [rootpath] prints is simple and lies in the store:
    no node occurs twice, every node is a stored object, so the path is no
    longer than the store; and apart from its first node (the root found)
    and the queried node, no node on it is root-flagged. *)
Theorem rootpath_path_is_simple strtoull g args v p :
  cmd_rootpath strtoull g args = Some (RootPathFound v p) ->
  NoDup p /\
  (forall x, x ∈ p -> is_Some (get_heap_object g x)) /\
  (length p <= length g)%nat /\
  (forall i x, p !! S i = Some x -> x ≠ v -> root_at g x = false).
Proof.
  intros H.
  destruct (cmd_rootpath_found_start _ _ _ _ _ H) as (obj & Ha & <-).
  apply get_ruby_heap_obj_arg_stored in Ha.
  destruct (cmd_rootpath_found _ _ _ _ _ H)
    as (r & rest & -> & Hlast & Hroot & Hne & Hch & Hmin).
  assert (NoDup (r :: rest)) as Hnd.
  { apply NoDup_alt. intros i j x Hi Hj.
    assert (forall i j, (r :: rest) !! i = Some x -> (r :: rest) !! j = Some x ->
              ~ (i < j)%nat) as Hlt.
    { clear i j Hi Hj. intros i j Hi Hj Hij.
      pose proof (lookup_lt_Some _ _ _ Hj) as Hlen. cbn [length] in Hlen.
      pose proof (ref_chain_prefix_hops g rest r i x Hch Hi) as H1.
      pose proof (ref_chain_suffix_hops g _ rest r j x Hch Hlast Hj) as H2.
      pose proof (hops_trans _ _ _ _ _ _ H2 H1) as H3.
      specialize (Hmin _ _ H3 Hroot Hne). lia. }
    destruct (Nat.lt_trichotomy i j) as [Hij|[Hij|Hij]]; [|done|].
    - by destruct (Hlt i j Hi Hj).
    - by destruct (Hlt j i Hj Hi). }
  assert (forall x, x ∈ r :: rest -> is_Some (get_heap_object g x)) as Hst.
  { intros x [i Hi]%list_elem_of_lookup.
    eapply hops_stored; [by eexists|].
    by apply (ref_chain_suffix_hops g _ rest r i x Hch Hlast Hi). }
  split_and!; auto.
  - rewrite <- (size_list_to_set (C := gset N) (r :: rest)) by done.
    apply stored_set_size. intros x Hx. apply Hst.
    by apply elem_of_list_to_set in Hx.
  - intros i x Hi Hx. destruct (root_at g x) eqn:Hr; [|done].
    pose proof (lookup_lt_Some _ _ _ Hi) as Hlen. cbn [length] in Hlen.
    pose proof (ref_chain_suffix_hops g _ rest r (S i) x Hch Hlast Hi) as H2.
    specialize (Hmin _ _ H2 Hr Hx). lia.
Qed.

Lemma rootpath_path_is_simple_witness :
  cmd_rootpath strtoull_dec cycle_graph (Some "1"%string)
    = Some (RootPathFound 1 [4; 3; 2; 1]) /\
  NoDup [4; 3; 2; 1] /\
  (forall x, x ∈ [4; 3; 2; 1] -> is_Some (get_heap_object cycle_graph x)) /\
  (length [4; 3; 2; 1] <= length cycle_graph)%nat /\
  (forall i x, [4; 3; 2; 1] !! S i = Some x -> x ≠ 1 ->
     root_at cycle_graph x = false).
Proof.
  split; [by vm_compute|].
  apply (rootpath_path_is_simple strtoull_dec cycle_graph (Some "1"%string)).
  by vm_compute.
Defined.

(** Scanning references that are not root-flagged up to a root-flagged one
    that has not been visited: the loop breaks there. *)
Lemma scan_refs_first_root g v r post : forall pre s,
  (forall x, x ∈ pre -> root_at g x = false) ->
  root_at g r = true -> r ≠ v ->
  v ∈ bfs_visited s -> r ∉ bfs_visited s -> bfs_parent s !! v = None ->
  let s' := scan_refs g v (pre ++ r :: post) s in
  bfs_found s' = true /\ bfs_cur s' = Some r /\
  bfs_parent s' !! r = Some v /\ bfs_parent s' !! v = None.
Proof.
  induction pre as [|x pre IH]; intros s Hpre Hr Hne Hv Hnr Hpv;
    cbn [app scan_refs].
  - rewrite decide_False by done. rewrite Hr. bfs_simpl.
    split_and!; auto.
    + apply lookup_insert_eq.
    + by rewrite lookup_insert_ne.
  - assert (root_at g x = false) as Hx by (apply Hpre; by left).
    assert (x ≠ r) as Hxr by congruence.
    assert (forall y, y ∈ pre -> root_at g y = false) as Hpre'
      by (intros; apply Hpre; by right).
    destruct (decide (x ∈ bfs_visited s)) as [Hin|Hnin]; [by apply IH|].
    rewrite Hx. apply IH; bfs_simpl; auto.
    + by apply elem_of_union_r.
    + intros [?%elem_of_singleton|?]%elem_of_union; [congruence|done].
    + rewrite lookup_insert_ne; [done|]. by intros ->.
Qed.

(** X14. A root among the direct references is found at once, and ties are
    decided by declaration order: when the references of the queried node
    [v] start with nodes that are not root-flagged followed by a
    root-flagged node [r] other than [v], [rootpath] prints [r] and then
    [v], whatever comes behind [r] and whatever else the graph holds. *)
Theorem rootpath_first_root_reference strtoull g args obj pre r post :
  get_ruby_heap_obj_arg strtoull g args = inr obj ->
  get_refs_from g obj = pre ++ r :: post ->
  (forall x, x ∈ pre -> root_at g x = false) ->
  root_at g r = true -> r ≠ get_addr obj ->
  cmd_rootpath strtoull g args
    = Some (RootPathFound (get_addr obj) [r; get_addr obj]).
Proof.
  intros Ha Hrefs Hpre Hr Hne.
  pose proof (get_ruby_heap_obj_arg_stored _ _ _ _ Ha) as Hst.
  assert (root_path_budget 1 2 g (get_addr obj)
          = Some (RootPathFound (get_addr obj) [r; get_addr obj])) as Hrun.
  { unfold root_path_budget. cbn [bfs_loop].
    assert (bfs_cond (bfs_init (get_addr obj)) = true) as -> by done.
    unfold bfs_body. bfs_simpl. unfold refs_of. rewrite Hst, Hrefs.
    destruct (scan_refs_first_root g (get_addr obj) r post pre
      (mkBfs [] {[get_addr obj]} ∅ (Some (get_addr obj)) false))
      as (Hf & Hc & Hpr & Hpv); auto.
    { bfs_simpl. by apply elem_of_singleton. }
    { bfs_simpl. by intros ?%elem_of_singleton. }
    set (s' := scan_refs _ _ _ _) in *.
    unfold bfs_cond. rewrite Hf. destruct (bfs_q s'); cbn [negb];
      cbn [mbind option_bind]; rewrite Hf, Hc; cbn [negb walk_parents];
      by rewrite Hpr, Hpv. }
  destruct (cmd_rootpath_total strtoull g args) as [o Ho].
  rewrite Ho. f_equal. revert Ho.
  unfold cmd_rootpath, cmd_rootpath_budget. rewrite Ha. intros Ho.
  by eapply root_path_budget_irrelevant.
Qed.

Lemma rootpath_first_root_reference_witness :
  (get_ruby_heap_obj_arg strtoull_dec two_roots_graph (Some "1"%string)
     = inr (mkObj 1 T_OBJECT 40 false [2; 1; 3; 4]) /\
   get_refs_from two_roots_graph (mkObj 1 T_OBJECT 40 false [2; 1; 3; 4])
     = [2; 1] ++ 3 :: [4] /\
   (forall x, x ∈ [2; 1] -> root_at two_roots_graph x = false) /\
   root_at two_roots_graph 3 = true /\
   3 ≠ get_addr (mkObj 1 T_OBJECT 40 false [2; 1; 3; 4])) /\
  cmd_rootpath strtoull_dec two_roots_graph (Some "1"%string)
    = Some (RootPathFound 1 [3; 1]).
Proof.
  assert (forall x, x ∈ [2; 1] -> root_at two_roots_graph x = false) as Hpre.
  { intros x Hx. repeat (apply elem_of_cons in Hx as [->|Hx]; [done|]).
    by apply elem_of_nil in Hx. }
  split; [split_and!; try done; by vm_compute|].
  by apply (rootpath_first_root_reference strtoull_dec two_roots_graph
              (Some "1"%string) (mkObj 1 T_OBJECT 40 false [2; 1; 3; 4])
              [2; 1] 3 [4]).
Defined.

(** Every visited node is reached from the start in as many hops as its
    depth. *)
Lemma bfs_inv_reach g v lvl pend s :
  bfs_inv g v lvl pend s ->
  forall n x, lvl x = n -> x ∈ bfs_visited s -> hops g v n x.
Proof.
  intros I. induction n as [|n IH]; intros x Hl Hx.
  - destruct (decide (x = v)) as [->|Hne]; [constructor|].
    destruct (inv_tree I x Hx Hne) as (y & _ & _ & _ & Hl' & _). lia.
  - destruct (decide (x = v)) as [->|Hne].
    { rewrite (inv_lvl0 I) in Hl. lia. }
    destruct (inv_tree I x Hx Hne) as (y & _ & Hy & He & Hl' & _).
    econstructor; [|exact He]. apply IH; [lia|done].
Qed.

Lemma dequeue_trace_reach g v n : forall s,
  bfs_head_ok g v s ->
  forall x, x ∈ dequeue_trace n g s -> exists k, hops g v k x.
Proof.
  induction n as [|n IH]; intros s Hs x; cbn [dequeue_trace];
    [by intros ?%elem_of_nil|].
  destruct (bfs_cond s) eqn:Hc; [|by intros ?%elem_of_nil].
  destruct (bfs_cond_true_inv g v s Hs Hc) as (lvl & c & q & I & Hq).
  rewrite Hq. intros [->|Hx]%elem_of_cons.
  - exists (lvl c). apply (bfs_inv_reach g v lvl None s I); [done|].
    apply (inv_q_visited I). rewrite Hq. by left.
  - eapply IH; [|exact Hx]. by eapply bfs_body_ok.
Qed.

(** X15. The search works on the part of the graph that the queried node
    reaches and on nothing else: every node it takes from the queue is
    reached from the queried node along the references it follows. *)
Theorem rootpath_dequeues_reachable_nodes strtoull g args obj :
  get_ruby_heap_obj_arg strtoull g args = inr obj ->
  forall n x, x ∈ dequeue_trace n g (bfs_init (get_addr obj)) ->
    exists k, hops g (get_addr obj) k x.
Proof.
  intros Ha n x. apply get_ruby_heap_obj_arg_stored in Ha.
  apply dequeue_trace_reach. left. eexists. apply bfs_init_inv. by eexists.
Qed.

Lemma rootpath_dequeues_reachable_nodes_witness :
  get_ruby_heap_obj_arg strtoull_dec garbage_graph (Some "2"%string)
    = inr (mkObj 2 T_OBJECT 40 false [3; 4]) /\
  forall n x, x ∈ dequeue_trace n garbage_graph (bfs_init 2) ->
    exists k, hops garbage_graph 2 k x.
Proof.
  split; [by vm_compute|].
  apply (rootpath_dequeues_reachable_nodes strtoull_dec garbage_graph
           (Some "2"%string) (mkObj 2 T_OBJECT 40 false [3; 4])).
  by vm_compute.
Defined.

(* ================================================================== *)
(** * Dispatch of the listed commands *)

(** X16. Every command that [help] lists is reached by its name: a line
    made of the name, a space and an argument without spaces at its ends
    calls the function the table gives for that name, with that argument. *)
Theorem listed_command_is_dispatched env g c a :
  c ∈ commands_ ->
  first_char a ≠ Some " "%char -> last_char a ≠ Some " "%char ->
  (name c, help c) ∈ cmd_help /\
  execute_command env g (name c +:+ String " " a)
  = call_command env g (func c) (Some a).
Proof.
  intros Hc Hfa Hla. split.
  { unfold cmd_help. apply list_elem_of_fmap. by exists c. }
  assert (has_space (name c) = false /\ name c ≠ EmptyString /\
          find (fun c' => String.eqb (name c') (name c)) commands_ = Some c)
    as (Hw & Hne & Hf).
  { apply list_elem_of_In in Hc. cbn in Hc.
    by destruct Hc as [<-|[<-|[<-|[<-|[<-|[<-|[<-|[<-|[]]]]]]]]]. }
  pose proof (parse_line_padded (name c) a 0 1 0 Hw Hne Hfa Hla
                (fun _ => le_n 1)) as Hp.
  cbn [spaces] in Hp. rewrite append_nil_l, append_cons, append_nil_l in Hp.
  assert (a +:+ EmptyString = a) as Ha0.
  { clear. induction a as [|d a IH]; [done|]. by rewrite append_cons, IH. }
  rewrite Ha0 in Hp.
  unfold execute_command. fold (parse_line (name c +:+ String " " a)).
  by rewrite Hp, Hf.
Qed.

Lemma listed_command_is_dispatched_witness :
  (mkCommand "diff" F_diff "Diff current heap dump with specifed dump"
     ∈ commands_ /\
   first_char "my dump.json" ≠ Some " "%char /\
   last_char "my dump.json" ≠ Some " "%char) /\
  ("diff"%string, "Diff current heap dump with specifed dump"%string)
     ∈ cmd_help /\
  execute_command sample_env example_graph ("diff" +:+ String " " "my dump.json")
  = call_command sample_env example_graph F_diff (Some "my dump.json"%string).
Proof.
  assert (mkCommand "diff" F_diff "Diff current heap dump with specifed dump"
            ∈ commands_) as Hin.
  { apply list_elem_of_In. cbn. tauto. }
  split; [by split_and!|].
  by apply (listed_command_is_dispatched sample_env example_graph
              (mkCommand "diff" F_diff
                 "Diff current heap dump with specifed dump")
              "my dump.json").
Defined.

(* ================================================================== *)
(** * rootpath: the order in which nodes leave the queue *)

(** What one iteration does to the queue. *)
Lemma bfs_body_queue g s c q0 :
  bfs_q s = c :: q0 ->
  exists new,
    bfs_q (bfs_body g s) = q0 ++ new /\ NoDup new /\
    (forall x, x ∈ new -> x ∉ bfs_visited s) /\
    (forall x, x ∈ new -> x ∈ bfs_visited (bfs_body g s)) /\
    (forall x, x ∈ bfs_visited s -> x ∈ bfs_visited (bfs_body g s)).
Proof.
  intros Hq. unfold bfs_body. rewrite Hq.
  apply (scan_refs_queue g c (refs_of g c)
    (mkBfs q0 (bfs_visited s) (bfs_parent s) (Some c) (bfs_found s))).
Qed.

Lemma bfs_body_NoDup g s :
  (forall x, x ∈ bfs_q s -> x ∈ bfs_visited s) ->
  NoDup (bfs_q s) -> NoDup (bfs_q (bfs_body g s)).
Proof.
  intros Hqv Hnd. destruct (bfs_q s) as [|c q0] eqn:Hq.
  { unfold bfs_body. by rewrite Hq, Hq. }
  destruct (bfs_body_queue g s c q0 Hq) as (new & -> & Hnew & Hfresh & _).
  apply NoDup_cons in Hnd as [_ Hnd]. apply NoDup_app. split_and!; auto.
  intros x Hx Hx'. apply (Hfresh x Hx'), Hqv. by right.
Qed.

(** A node that leaves the queue later is reached by no path shorter than
    the depth of the node that leaves it now. *)
Lemma dequeue_trace_after_head g v lvl s c q0 n :
  bfs_inv g v lvl None s -> bfs_q s = c :: q0 -> NoDup (bfs_q s) ->
  forall x k, x ∈ dequeue_trace n g (bfs_body g s) -> hops g v k x ->
    (lvl c <= k)%nat.
Proof.
  intros I Hq Hnd x k Hx Hk.
  destruct (bfs_body_queue g s c q0 Hq) as (new & Hq' & Hnew & Hfresh & Hin & Hmono).
  rewrite Hq in Hnd. apply NoDup_cons in Hnd as [Hc Hnd].
  assert (forall y, y ∈ q0 -> y ∈ bfs_visited s) as Hq0.
  { intros y Hy. apply (inv_q_visited I). rewrite Hq. by right. }
  destruct (dequeue_trace_NoDup g n (bfs_body g s)
              (bfs_visited s ∖ list_to_set q0)) as [_ HD].
  - rewrite Hq'. apply NoDup_app. split_and!; auto.
    intros y Hy Hy'. by apply (Hfresh y Hy'), Hq0.
  - intros y. rewrite Hq'. intros [Hy|Hy]%elem_of_app; [|by apply Hin].
    by apply Hmono, Hq0.
  - intros y [Hy Hny]%elem_of_difference. split; [by apply Hmono|].
    rewrite Hq'. intros [Hy'|Hy']%elem_of_app.
    + apply Hny. by apply elem_of_list_to_set.
    + by apply (Hfresh y Hy').
  - specialize (HD x Hx).
    destruct (decide (x ∈ q0)) as [Hxq|Hxq].
    + apply list_elem_of_lookup in Hxq as [i Hi].
      assert (lvl c <= lvl x)%nat.
      { apply (inv_sorted I O (S i) c x); rewrite ?Hq; cbn; auto with lia. }
      assert (lvl x <= k)%nat; [|lia].
      apply (inv_short I); [|done]. apply Hq0. apply list_elem_of_lookup.
      by exists i.
    + assert (x ∉ bfs_visited s) as Hnv.
      { intros Hv. apply HD. apply elem_of_difference. split; [done|].
        by intros ?%elem_of_list_to_set. }
      destruct (bfs_frontier g v lvl c _ k x (bfs_pop_inv g v lvl s c q0 I Hq) Hk)
        as [?|?]; [done|lia].
Qed.

Lemma dequeue_trace_layered g v n : forall s,
  bfs_head_ok g v s -> NoDup (bfs_q s) ->
  forall i j xi xj k, (i < j)%nat ->
    dequeue_trace n g s !! i = Some xi ->
    dequeue_trace n g s !! j = Some xj ->
    hops g v k xj -> exists k', (k' <= k)%nat /\ hops g v k' xi.
Proof.
  induction n as [|n IH]; intros s Hs Hnd i j xi xj k Hij;
    cbn [dequeue_trace]; [done|].
  destruct (bfs_cond s) eqn:Hc; [|done].
  destruct (bfs_cond_true_inv g v s Hs Hc) as (lvl & c & q0 & I & Hq).
  rewrite Hq. destruct j as [|j]; [lia|]. cbn [lookup list_lookup].
  destruct i as [|i].
  - intros [= <-] Hj Hk. exists (lvl c). split.
    + eapply (dequeue_trace_after_head g v lvl s c q0 n); eauto.
      apply list_elem_of_lookup. by exists j.
    + apply (bfs_inv_reach g v lvl None s I); [done|].
      apply (inv_q_visited I). rewrite Hq. by left.
  - apply IH; [by eapply bfs_body_ok| |lia].
    apply bfs_body_NoDup; [apply (inv_q_visited I)|done].
Qed.

(** X17. Nodes leave the queue nearest first: of two nodes that the search
    dequeues, the one dequeued earlier is at most as many hops away from
    the queried node as the one dequeued later. *)
Theorem rootpath_dequeues_nearest_first strtoull g args obj n i j xi xj k :
  get_ruby_heap_obj_arg strtoull g args = inr obj ->
  (i < j)%nat ->
  dequeue_trace n g (bfs_init (get_addr obj)) !! i = Some xi ->
  dequeue_trace n g (bfs_init (get_addr obj)) !! j = Some xj ->
  hops g (get_addr obj) k xj ->
  exists k', (k' <= k)%nat /\ hops g (get_addr obj) k' xi.
Proof.
  intros Ha. apply get_ruby_heap_obj_arg_stored in Ha.
  apply dequeue_trace_layered.
  - left. eexists. apply bfs_init_inv. by eexists.
  - bfs_simpl. apply NoDup_singleton.
Qed.

Lemma rootpath_dequeues_nearest_first_witness :
  (get_ruby_heap_obj_arg strtoull_dec lone_root_graph (Some "1"%string)
     = inr (mkObj 1 T_OBJECT 40 true [1; 2; 2; 9]) /\
   (1 < 2)%nat /\
   dequeue_trace 3 lone_root_graph (bfs_init 1) !! 1%nat = Some 2 /\
   dequeue_trace 3 lone_root_graph (bfs_init 1) !! 2%nat = Some 3 /\
   hops lone_root_graph 1 2 3) /\
  exists k', (k' <= 2)%nat /\ hops lone_root_graph 1 k' 2.
Proof.
  assert (hops lone_root_graph 1 2 3) as Hh.
  { apply (hops_S _ _ _ 2); [apply (hops_S _ _ _ 1); [constructor|]|];
      apply list_elem_of_In; vm_compute; tauto. }
  split; [split_and!; try done; try lia; by vm_compute|].
  apply (rootpath_dequeues_nearest_first strtoull_dec lone_root_graph
           (Some "1"%string) (mkObj 1 T_OBJECT 40 true [1; 2; 2; 9])
           3 1 2 2 3 2); try done; try lia; by vm_compute.
Defined.
